(** * Connect Four rules engine: a shallow embedding of
      [connect_four_logic.py] and the properties of its move API.

    The engine is the class [ConnectFour]: a 6 x 7 numpy grid, a dict giving
    the next free row of every column, and four scalar attributes.  Its
    methods mutate the object in place and signal illegal moves with
    exceptions, so the embedding threads the object through a state monad
    whose state survives a raised exception: a partial write followed by a
    [raise] would be visible in the model exactly as it is in Python. *)

From stdpp Require Import base option list gmap strings pretty.
From Stdlib Require Import ZArith Lia.

Open Scope Z_scope.

(** ** Exceptions and outcomes *)

(** The exception classes the engine can meet, with the message of the ones
    it raises itself.  [KeyError] and [IndexError] come from the dict and
    from numpy when an attribute has been tampered with from outside. *)
Inductive exn : Type :=
  | RuntimeError (msg : string)
  | ValueError (msg : string)
  | KeyError (key : Z)
  | IndexError.

(** A call returns, raises, or exhausts the iteration budget of a [while]
    loop ([Diverge]); the last never happens for the engine's own loops, see
    [walk_total]. *)
Inductive outcome (A : Type) : Type :=
  | Ok (a : A)
  | Raise (e : exn)
  | Diverge.
Arguments Ok {A} a.
Arguments Raise {A} e.
Arguments Diverge {A}.

#[global] Instance outcome_ret : MRet outcome := λ A a, Ok a.
#[global] Instance outcome_bind : MBind outcome := λ A B f m,
  match m with
  | Ok a => f a
  | Raise e => Raise e
  | Diverge => Diverge
  end.

(** ** numpy arrays of shape (rows, cols) *)

Abbreviation ndarray := (list (list Z)).

(** [np.zeros((rows, cols), dtype=int)]. *)
Definition np_zeros (rows cols : Z) : ndarray :=
  replicate (Z.to_nat rows) (replicate (Z.to_nat cols) 0).

(** numpy resolves an index [i] on an axis of length [n]: [0 <= i < n] is
    taken as it is, [-n <= i < 0] counts from the end, anything else is an
    IndexError. *)
Definition np_index (n : nat) (i : Z) : option nat :=
  if bool_decide (0 ≤ i < Z.of_nat n) then Some (Z.to_nat i)
  else if bool_decide (- Z.of_nat n ≤ i < 0) then Some (Z.to_nat (i + Z.of_nat n))
  else None.

(** [a[r, c]] *)
Definition np_getitem (a : ndarray) (r c : Z) : outcome Z :=
  match np_index (length a) r with
  | None => Raise IndexError
  | Some i =>
      match a !! i with
      | None => Raise IndexError
      | Some line =>
          match np_index (length line) c with
          | None => Raise IndexError
          | Some j =>
              match line !! j with
              | None => Raise IndexError
              | Some v => Ok v
              end
          end
      end
  end.

(** [a[r, c] = v] *)
Definition np_setitem (a : ndarray) (r c : Z) (v : Z) : outcome ndarray :=
  match np_index (length a) r with
  | None => Raise IndexError
  | Some i =>
      match a !! i with
      | None => Raise IndexError
      | Some line =>
          match np_index (length line) c with
          | None => Raise IndexError
          | Some j => Ok (<[i := <[j := v]> line]> a)
          end
      end
  end.

(** ** The engine *)

Module ConnectFour.

Definition ROWS : Z := 6.
Definition COLS : Z := 7.
Definition CONNECT : Z := 4.

Definition EMPTY : Z := 0.
Definition PLAYER1 : Z := 1.
Definition PLAYER2 : Z := 2.

(** The attributes of a [ConnectFour] object.  [winner] is [int | None]. *)
Record GameState : Type := mkState {
  board : ndarray;
  _next_row : gmap Z Z;
  current_player : Z;
  moves_made : Z;
  game_over : bool;
  winner : option Z
}.

(** *** The monad of methods: state that survives exceptions *)

Definition M (A : Type) : Type := GameState → outcome A * GameState.

#[global] Instance M_ret : MRet M := λ A a s, (Ok a, s).
#[global] Instance M_bind : MBind M := λ A B f m s,
  match m s with
  | (Ok a, s') => f a s'
  | (Raise e, s') => (Raise e, s')
  | (Diverge, s') => (Diverge, s')
  end.

Definition raise {A} (e : exn) : M A := λ s, (Raise e, s).
Definition gets {A} (f : GameState → A) : M A := λ s, (Ok (f s), s).
Definition modify (f : GameState → GameState) : M () := λ s, (Ok (), f s).
Definition lift {A} (o : outcome A) : M A := λ s, (o, s).

Definition set_board (b : ndarray) (s : GameState) : GameState :=
  mkState b (_next_row s) (current_player s) (moves_made s) (game_over s) (winner s).
Definition set_next_row (d : gmap Z Z) (s : GameState) : GameState :=
  mkState (board s) d (current_player s) (moves_made s) (game_over s) (winner s).
Definition set_current_player (p : Z) (s : GameState) : GameState :=
  mkState (board s) (_next_row s) p (moves_made s) (game_over s) (winner s).
Definition set_moves_made (n : Z) (s : GameState) : GameState :=
  mkState (board s) (_next_row s) (current_player s) n (game_over s) (winner s).
Definition set_game_over (g : bool) (s : GameState) : GameState :=
  mkState (board s) (_next_row s) (current_player s) (moves_made s) g (winner s).
Definition set_winner (w : option Z) (s : GameState) : GameState :=
  mkState (board s) (_next_row s) (current_player s) (moves_made s) (game_over s) w.

(** [d[k]] on a dict. *)
Definition dict_getitem (d : gmap Z Z) (k : Z) : outcome Z :=
  match d !! k with
  | Some v => Ok v
  | None => Raise (KeyError k)
  end.

(** [{c: v for c in range(n)}] *)
Definition dict_of_range (n : Z) (v : Z) : gmap Z Z :=
  list_to_map ((λ c : nat, (Z.of_nat c, v)) <$> seq 0 (Z.to_nat n)).

(** *** reset *)

Definition reset : M () := λ _,
  (Ok (),
   {| board := np_zeros ROWS COLS;
      _next_row := dict_of_range COLS (ROWS - 1);
      current_player := PLAYER1;
      moves_made := 0;
      game_over := false;
      winner := None |}).

(** *** _count_consecutive *)

(** One [while] loop of [_count_consecutive]: [fuel] bounds the number of
    times the loop condition is evaluated. *)
Fixpoint walk (fuel : nat) (b : ndarray) (r c dr dc piece count : Z) : outcome Z :=
  match fuel with
  | O => Diverge
  | S fuel' =>
      if bool_decide (0 ≤ r < ROWS) && bool_decide (0 ≤ c < COLS) then
        v ← np_getitem b r c;
        if bool_decide (v = piece)
        then walk fuel' b (r + dr) (c + dc) dr dc piece (count + 1)
        else Ok count
      else Ok count
  end.

(** No straight walk on the grid evaluates its condition more often than
    this. *)
Definition walk_fuel : nat := Z.to_nat (ROWS + COLS).

Definition _count_consecutive (b : ndarray) (row col dr dc piece : Z) : outcome Z :=
  count ← walk walk_fuel b (row + dr) (col + dc) dr dc piece 1;
  walk walk_fuel b (row - dr) (col - dc) (- dr) (- dc) piece count.

(** *** _is_winning_move *)

Definition directions : list (Z * Z) := [(0, 1); (1, 0); (1, 1); (1, -1)].

(** The [for] loop with its early [return True]. *)
Fixpoint any_direction (ds : list (Z * Z)) (b : ndarray) (row col piece : Z) : outcome bool :=
  match ds with
  | [] => Ok false
  | (dr, dc) :: ds' =>
      n ← _count_consecutive b row col dr dc piece;
      if bool_decide (n >= CONNECT) then Ok true
      else any_direction ds' b row col piece
  end.

Definition _is_winning_move (b : ndarray) (row col : Z) : outcome bool :=
  piece ← np_getitem b row col;
  any_direction directions b row col piece.

(** *** drop_piece *)

Definition msg_finished : string := "The game is already finished.".
Definition msg_column : string :=
  "Column must be between 0 and " +:+ pretty (COLS - 1) +:+ ".".
Definition msg_full : string := "That column is full.".

Definition drop_piece (col : Z) : M (Z * Z) :=
  over ← gets game_over;
  if over : bool then raise (RuntimeError msg_finished) else
  if negb (bool_decide (0 ≤ col < COLS)) then raise (ValueError msg_column) else
  d ← gets _next_row;
  row ← lift (dict_getitem d col);
  if bool_decide (row < 0) then raise (ValueError msg_full) else
  (* place the disc *)
  b ← gets board;
  p ← gets current_player;
  b' ← lift (np_setitem b row col p);
  modify (set_board b');;
  d ← gets _next_row;
  old ← lift (dict_getitem d col);
  modify (set_next_row (<[col := old - 1]> d));;
  n ← gets moves_made;
  modify (set_moves_made (n + 1));;
  (* check for a winning move *)
  b ← gets board;
  won ← lift (_is_winning_move b row col);
  (if won : bool then
     modify (set_game_over true);;
     p ← gets current_player;
     modify (set_winner (Some p))
   else
     n ← gets moves_made;
     if bool_decide (n = ROWS * COLS) then
       modify (set_game_over true)
     else
       p ← gets current_player;
       modify (set_current_player
                 (if bool_decide (p = PLAYER1) then PLAYER2 else PLAYER1)));;
  mret (row, col).

(** [is_draw] property. *)
Definition is_draw : M bool :=
  over ← gets game_over;
  w ← gets winner;
  mret (over && bool_decide (w = None)).

(** [engine[row, col]]: [__getitem__] at a pair of integers, the use the
    source documents. *)
Definition __getitem__ (idx : Z * Z) : M Z :=
  b ← gets board;
  lift (np_getitem b idx.1 idx.2).

(** *** Running a game *)

(** The object right after [ConnectFour()]: [__init__] ends with
    [self.reset()], which overwrites every attribute. *)
Definition new_game : GameState :=
  (reset (mkState [] ∅ 0 0 false None)).2.

(** Play the columns of [cols] in order; [None] as soon as a drop fails. *)
Fixpoint play (cols : list Z) (s : GameState) : option GameState :=
  match cols with
  | [] => Some s
  | col :: cols' =>
      match drop_piece col s with
      | (Ok _, s') => play cols' s'
      | _ => None
      end
  end.

End ConnectFour.

Import ConnectFour.

(** ** Vocabulary of the specification *)

(** The cell of the grid at row [r], column [c] (no wrap-around: this is the
    grid of the rules, not numpy's indexing). *)
Definition cell (b : ndarray) (r c : Z) : option Z :=
  if bool_decide (0 ≤ r ∧ 0 ≤ c)
  then b !! Z.to_nat r ≫= λ line : list Z, line !! Z.to_nat c
  else None.

(** Shape (ROWS, COLS). *)
Definition wf_board (b : ndarray) : Prop :=
  length b = Z.to_nat ROWS ∧ Forall (λ line, length line = Z.to_nat COLS) b.

(** A [GameState] of the data model: a grid of the right shape and, for
    every column, a next free row that is a row index or [-1]. *)
Definition wf_state (s : GameState) : Prop :=
  wf_board (board s) ∧
  ∀ c, 0 ≤ c < COLS → ∃ r, _next_row s !! c = Some r ∧ -1 ≤ r < ROWS.

(** The three failures of [drop_piece], under the names the specification
    gives them. *)
Definition InvalidState : exn := RuntimeError msg_finished.
Definition InvalidColumn : exn := ValueError msg_column.
Definition ColumnFull : exn := ValueError msg_full.

(** The states a game can be in: what [play] reaches from a new game. *)
Definition reachable (s : GameState) : Prop :=
  ∃ cols, play cols new_game = Some s.

(** How many of the moves [cols] went into column [c]. *)
Definition drops_into (c : Z) (cols : list Z) : Z :=
  Z.of_nat (length (filter (λ x, x = c) cols)).

(** The discs of column [c]: the rows whose cell is not Empty. *)
Definition discs_in_column (b : ndarray) (c : Z) : list Z :=
  filter (λ r, cell b r c ≠ Some EMPTY) (seqZ 0 ROWS).

(** The number of non-Empty cells of the grid. *)
Definition count_discs (b : ndarray) : Z :=
  Z.of_nat (length (filter (λ v, v ≠ EMPTY) (concat b))).

(** *** Four in a line, as the rules state it

    [on_grid_is b piece r c]: [(r, c)] is on the grid and holds [piece]. *)
Definition on_grid_is (b : ndarray) (piece r c : Z) : Prop :=
  0 ≤ r < ROWS ∧ 0 ≤ c < COLS ∧ cell b r c = Some piece.

#[global] Instance on_grid_is_dec b piece r c : Decision (on_grid_is b piece r c).
Proof. unfold on_grid_is. apply _. Defined.

(** [n] is the number of cells holding [piece] met when leaving [(r, c)]
    along [(dr, dc)]: the first [n] cells on that ray hold it and the next
    one does not (or is off the grid). *)
Definition run_length (b : ndarray) (piece r c dr dc : Z) (n : Z) : Prop :=
  0 ≤ n ∧
  (∀ k, 1 ≤ k ≤ n → on_grid_is b piece (r + k * dr) (c + k * dc)) ∧
  ¬ on_grid_is b piece (r + (n + 1) * dr) (c + (n + 1) * dc).

(** The length of the line through [(r, c)] on the axis [(dr, dc)]: the cell
    itself plus the runs on both sides. *)
Definition line_length (b : ndarray) (piece r c dr dc : Z) (t : Z) : Prop :=
  ∃ nf nb,
    run_length b piece r c dr dc nf ∧
    run_length b piece r c (- dr) (- dc) nb ∧
    t = 1 + nf + nb.

(** Some axis carries a line of [CONNECT] or more through [(r, c)]. *)
Definition four_in_line (b : ndarray) (piece r c : Z) : Prop :=
  ∃ d t, d ∈ directions ∧ line_length b piece r c d.1 d.2 t ∧ CONNECT ≤ t.

(** *** The two halves of a successful [drop_piece]

    The object after the three writes that place the disc, and after the
    branch that concludes the move; [drop_piece_unfold] shows that the
    method is their composition. *)
Definition placed (s : GameState) (row col : Z) (b' : ndarray) : GameState :=
  mkState b' (<[col := row - 1]> (_next_row s)) (current_player s)
          (moves_made s + 1) (game_over s) (winner s).

Definition conclude (won : bool) (s : GameState) : GameState :=
  if won then set_winner (Some (current_player s)) (set_game_over true s)
  else if bool_decide (moves_made s = ROWS * COLS) then set_game_over true s
  else set_current_player
         (if bool_decide (current_player s = PLAYER1) then PLAYER2 else PLAYER1) s.

(** *** The invariant of a game in progress *)

Definition is_player (p : Z) : Prop := p = PLAYER1 ∨ p = PLAYER2.

(** Column by column, the cells down to the next free row are Empty and the
    cells below it are not. *)
Definition gravity (s : GameState) : Prop :=
  ∀ c, 0 ≤ c < COLS →
    ∃ nr, _next_row s !! c = Some nr ∧ -1 ≤ nr < ROWS ∧
          ∀ r, 0 ≤ r < ROWS → (cell (board s) r c = Some EMPTY ↔ r ≤ nr).

Definition game_inv (s : GameState) : Prop :=
  wf_board (board s) ∧
  gravity s ∧
  is_player (current_player s) ∧
  (∀ r c v, cell (board s) r c = Some v → v = EMPTY ∨ is_player v) ∧
  moves_made s = count_discs (board s) ∧
  (game_over s = false → winner s = None).

(** One more move at the end of a game. *)
Definition then_drop (col : Z) (s : GameState) : option GameState :=
  match drop_piece col s with
  | (Ok _, s') => Some s'
  | _ => None
  end.

(** The state a game ends in (the new game if a move of it is refused). *)
Definition state_after (cols : list Z) : GameState :=
  default new_game (play cols new_game).

(** A drawn game: forty-two legal moves without a line of four. *)
Definition draw_game : list Z :=
  replicate 6 0 ++ replicate 6 1 ++ [4] ++ replicate 6 2 ++ replicate 6 3 ++
  replicate 6 6 ++ replicate 5 4 ++ replicate 6 5.

(** The game of the specification's scenario: Player1 stacks column 0. *)
Definition column0_game : list Z := [0; 1; 0; 1; 0; 1; 0].

(** *** Further vocabulary: turns and lines anywhere on the grid *)

(** The player who makes move number [n + 1]: Player1 moves first. *)
Definition to_move (n : Z) : Z := if Z.even n then PLAYER1 else PLAYER2.

(** No disc of the grid lies on a line of four of its own colour. *)
Definition no_line (b : ndarray) : Prop :=
  ∀ r c p, 0 ≤ r < ROWS → 0 ≤ c < COLS → p ≠ EMPTY →
           cell b r c = Some p → ¬ four_in_line b p r c.

(** ** The Tk front-end, [connect_four_gui.py]

    What the front-end shows is the display list of its canvas and the text
    of its status label.  [Canvas.create_rectangle] and [Canvas.create_oval]
    append an item, [Canvas.delete(tag)] removes the items carrying the tag,
    [Label.config(text=...)] replaces the text.  Window title, fonts and
    packing are not modelled. *)

Module ConnectFourGUI.

Definition CELL_SIZE : Z := 80.
Definition DISC_OUTLINE : Z := 2.
Definition COLOR_BG : string := "#0a4ea1".
Definition COLOR_EMPTY : string := "white".
Definition COLOR_P1 : string := "#f5d20c".
Definition COLOR_P2 : string := "#d62828".

Inductive shape : Type := Rectangle | Oval.

(** A canvas item: bounding box, fill colour, outline width, tags. *)
Record item : Type := mkItem {
  kind : shape;
  x0 : Z; y0 : Z; x1 : Z; y1 : Z;
  fill : string;
  width : Z;
  tags : list string
}.

(** A [<Button-1>] event; the handler reads [event.x] only. *)
Record tkEvent : Type := mkEvent { event_x : Z; event_y : Z }.

(** The attributes of a [ConnectFourGUI] object that carry state. *)
Record GUI : Type := mkGUI {
  engine : GameState;
  canvas : list item;
  status : string
}.

Definition set_engine (e : GameState) (g : GUI) : GUI :=
  mkGUI e (canvas g) (status g).
Definition canvas_create (it : item) (g : GUI) : GUI :=
  mkGUI (engine g) (canvas g ++ [it]) (status g).
Definition canvas_delete (tag : string) (g : GUI) : GUI :=
  mkGUI (engine g) (filter (λ it, tag ∉ tags it) (canvas g)) (status g).
Definition status_config (text : string) (g : GUI) : GUI :=
  mkGUI (engine g) (canvas g) text.

Definition _draw_hole (r c : Z) (g : GUI) : GUI :=
  let x0 := c * CELL_SIZE + DISC_OUTLINE in
  let y0 := r * CELL_SIZE + DISC_OUTLINE in
  let x1 := x0 + CELL_SIZE - 2 * DISC_OUTLINE in
  let y1 := y0 + CELL_SIZE - 2 * DISC_OUTLINE in
  canvas_create (mkItem Oval x0 y0 x1 y1 COLOR_EMPTY 0 []) g.

Definition _draw_board (g : GUI) : GUI :=
  let w := COLS * CELL_SIZE in
  let h := ROWS * CELL_SIZE in
  let g := canvas_create (mkItem Rectangle 0 0 w h COLOR_BG 0 []) g in
  foldl (λ g r, foldl (λ g c, _draw_hole r c g) g (seqZ 0 COLS)) g (seqZ 0 ROWS).

Definition _draw_disc (row col : Z) (g : GUI) : outcome () * GUI :=
  let x0 := col * CELL_SIZE + DISC_OUTLINE in
  let y0 := row * CELL_SIZE + DISC_OUTLINE in
  let x1 := x0 + CELL_SIZE - 2 * DISC_OUTLINE in
  let y1 := y0 + CELL_SIZE - 2 * DISC_OUTLINE in
  match np_getitem (board (engine g)) row col with
  | Ok piece =>
      let color := if bool_decide (piece = PLAYER1) then COLOR_P1 else COLOR_P2 in
      (Ok (), canvas_create (mkItem Oval x0 y0 x1 y1 color DISC_OUTLINE ["disc"]) g)
  | Raise e => (Raise e, g)
  | Diverge => (Diverge, g)
  end.

(** [if self.engine.winner:] is false for [None] and for [0]. *)
Definition _update_status (g : GUI) : GUI :=
  if game_over (engine g) then
    match winner (engine g) with
    | Some w =>
        if bool_decide (w ≠ 0)
        then status_config ("Player " +:+ pretty w +:+ " wins!") g
        else status_config "Draw!" g
    | None => status_config "Draw!" g
    end
  else
    status_config ("Player " +:+ pretty (current_player (engine g)) +:+ "'s turn") g.

(** [except ValueError: return] swallows both ValueErrors of the engine;
    any other exception leaves the handler. *)
Definition on_click (event : tkEvent) (g : GUI) : outcome () * GUI :=
  if game_over (engine g) then (Ok (), g)
  else
    let col := event_x event `div` CELL_SIZE in
    match drop_piece col (engine g) with
    | (Ok (row, col), e') =>
        match _draw_disc row col (set_engine e' g) with
        | (Ok _, g') => (Ok (), _update_status g')
        | (Raise e, g') => (Raise e, g')
        | (Diverge, g') => (Diverge, g')
        end
    | (Raise (ValueError _), e') => (Ok (), set_engine e' g)
    | (Raise e, e') => (Raise e, set_engine e' g)
    | (Diverge, e') => (Diverge, set_engine e' g)
    end.

Definition new_game (g : GUI) : outcome () * GUI :=
  match reset (engine g) with
  | (Ok _, e') => (Ok (), _update_status (canvas_delete "disc" (set_engine e' g)))
  | (Raise e, e') => (Raise e, set_engine e' g)
  | (Diverge, e') => (Diverge, set_engine e' g)
  end.

(** The object after [ConnectFourGUI(root)]: a new engine, an empty canvas
    and label, then the board drawing and the first status line. *)
Definition __init__ : GUI :=
  _update_status (_draw_board (mkGUI ConnectFour.new_game [] "")).

(** What the user can do: click on the canvas or press "New Game". *)
Inductive action : Type :=
  | Click (event : tkEvent)
  | NewGame.

Definition handle (a : action) (g : GUI) : outcome () * GUI :=
  match a with
  | Click event => on_click event g
  | NewGame => new_game g
  end.

(** A session: the actions handled in order from start-up; [None] as soon
    as a handler does not return normally. *)
Fixpoint session (acts : list action) (g : GUI) : option GUI :=
  match acts with
  | [] => Some g
  | a :: acts' =>
      match handle a g with
      | (Ok _, g') => session acts' g'
      | _ => None
      end
  end.

End ConnectFourGUI.

(** *** Vocabulary for what the window shows *)

(** The disc items of a canvas. *)
Definition discs (g : ConnectFourGUI.GUI) : list ConnectFourGUI.item :=
  filter (λ it, "disc" ∈ ConnectFourGUI.tags it) (ConnectFourGUI.canvas g).

(** Everything else on the canvas. *)
Definition backdrop (g : ConnectFourGUI.GUI) : list ConnectFourGUI.item :=
  filter (λ it, "disc" ∉ ConnectFourGUI.tags it) (ConnectFourGUI.canvas g).

(** The square of the canvas that belongs to cell [(row, col)]. *)
Definition in_cell_square (row col : Z) (it : ConnectFourGUI.item) : Prop :=
  col * 80 < ConnectFourGUI.x0 it ∧ ConnectFourGUI.x0 it < ConnectFourGUI.x1 it ∧
  ConnectFourGUI.x1 it < (col + 1) * 80 ∧
  row * 80 < ConnectFourGUI.y0 it ∧ ConnectFourGUI.y0 it < ConnectFourGUI.y1 it ∧
  ConnectFourGUI.y1 it < (row + 1) * 80.

(** The disc the window should show for player [piece] in cell
    [(row, col)]: yellow for Player1, red for Player2, outlined, centred in
    the cell's square with a margin of two pixels. *)
Definition disc_at (row col piece : Z) : ConnectFourGUI.item :=
  ConnectFourGUI.mkItem ConnectFourGUI.Oval
    (col * 80 + 2) (row * 80 + 2) (col * 80 + 78) (row * 80 + 78)
    (if decide (piece = 1) then "#f5d20c" else "#d62828") 2 ["disc"].

(** The white hole of cell [(row, col)]. *)
Definition hole_at (row col : Z) : ConnectFourGUI.item :=
  ConnectFourGUI.mkItem ConnectFourGUI.Oval
    (col * 80 + 2) (row * 80 + 2) (col * 80 + 78) (row * 80 + 78)
    "white" 0 [].

(** The status line that belongs to a state of the engine. *)
Definition status_line (e : GameState) : string :=
  match game_over e, winner e with
  | true, Some 1 => "Player 1 wins!"
  | true, Some 2 => "Player 2 wins!"
  | true, _ => "Draw!"
  | false, _ => if decide (current_player e = 1) then "Player 1's turn"
                else "Player 2's turn"
  end.

(** The windows a session can lead to. *)
Definition gui_reachable (g : ConnectFourGUI.GUI) : Prop :=
  ∃ acts, ConnectFourGUI.session acts ConnectFourGUI.__init__ = Some g.

(** The window a session ends in (the start-up window if a handler of it
    does not return). *)
Definition gui_after (acts : list ConnectFourGUI.action) : ConnectFourGUI.GUI :=
  default ConnectFourGUI.__init__
          (ConnectFourGUI.session acts ConnectFourGUI.__init__).

(** The window is in step with its engine. *)
Definition gui_inv (g : ConnectFourGUI.GUI) : Prop :=
  reachable (ConnectFourGUI.engine g) ∧
  ConnectFourGUI.status g = status_line (ConnectFourGUI.engine g) ∧
  backdrop g = ConnectFourGUI.canvas ConnectFourGUI.__init__ ∧
  (∀ it, it ∈ discs g ↔
         ∃ r c p, 0 ≤ r < ROWS ∧ 0 ≤ c < COLS ∧ p ≠ EMPTY ∧
                  cell (board (ConnectFourGUI.engine g)) r c = Some p ∧
                  it = disc_at r c p) ∧
  Z.of_nat (length (discs g)) = moves_made (ConnectFourGUI.engine g).

(** ** Tests of the embedding *)

Example scenario_col0 :
  (λ s, (game_over s, winner s, current_player s, moves_made s, board s))
    <$> play column0_game new_game
  = Some (true, Some 1, 1, 7,
          [[0;0;0;0;0;0;0]; [0;0;0;0;0;0;0]; [1;0;0;0;0;0;0];
           [1;2;0;0;0;0;0]; [1;2;0;0;0;0;0]; [1;2;0;0;0;0;0]]).
Proof. vm_compute. reflexivity. Qed.

Example scenario_draw :
  (λ s, (game_over s, winner s, moves_made s, board s))
    <$> play draw_game new_game
  = Some (true, None, 42,
          [[2;2;1;1;2;2;1]; [1;1;2;2;1;1;2]; [2;2;1;1;2;2;1];
           [1;1;2;2;1;1;2]; [2;2;1;1;2;2;1]; [1;1;2;2;1;1;2]]).
Proof. vm_compute. reflexivity. Qed.

Example msg_column_val : msg_column = "Column must be between 0 and 6."%string.
Proof. vm_compute. reflexivity. Qed.

Example drop_out_of_range :
  (drop_piece 7 new_game).1 = Raise InvalidColumn ∧
  (drop_piece (-1) new_game).1 = Raise InvalidColumn.
Proof. split; vm_compute; reflexivity. Qed.

(** ** numpy indexing on a grid of the right shape *)

Lemma np_index_in (n : nat) (i : Z) :
  0 ≤ i < Z.of_nat n → np_index n i = Some (Z.to_nat i).
Proof. intros H. unfold np_index. rewrite bool_decide_eq_true_2; done. Qed.

Lemma wf_board_line (b : ndarray) (i : nat) (line : list Z) :
  wf_board b → b !! i = Some line → length line = Z.to_nat COLS.
Proof.
  intros [_ Hall] Hi. rewrite Forall_lookup in Hall. exact (Hall _ _ Hi).
Qed.

Lemma wf_board_cell (b : ndarray) (r c : Z) :
  wf_board b → 0 ≤ r < ROWS → 0 ≤ c < COLS → ∃ v, cell b r c = Some v.
Proof.
  intros Hwf Hr Hc. unfold cell. rewrite bool_decide_eq_true_2 by lia.
  destruct (lookup_lt_is_Some_2 b (Z.to_nat r)) as [line Hl].
  { destruct Hwf as [-> _]. lia. }
  rewrite Hl. simpl.
  apply lookup_lt_is_Some_2. rewrite (wf_board_line _ _ _ Hwf Hl). lia.
Qed.

Lemma np_getitem_cell (b : ndarray) (r c : Z) :
  wf_board b → 0 ≤ r < ROWS → 0 ≤ c < COLS →
  ∃ v, cell b r c = Some v ∧ np_getitem b r c = Ok v.
Proof.
  intros Hwf Hr Hc. destruct (wf_board_cell b r c Hwf Hr Hc) as [v Hv].
  exists v. split; [done|]. revert Hv. unfold cell, np_getitem.
  rewrite bool_decide_eq_true_2 by lia.
  rewrite np_index_in by (destruct Hwf as [-> _]; lia).
  destruct (b !! Z.to_nat r) as [line|] eqn:Hl; [|done]. simpl.
  rewrite np_index_in by (rewrite (wf_board_line _ _ _ Hwf Hl); lia).
  by intros ->.
Qed.

Lemma np_setitem_cell (b : ndarray) (r c v : Z) :
  wf_board b → 0 ≤ r < ROWS → 0 ≤ c < COLS →
  ∃ b', np_setitem b r c v = Ok b' ∧ wf_board b' ∧
        cell b' r c = Some v ∧
        ∀ r' c', (r', c') ≠ (r, c) → cell b' r' c' = cell b r' c'.
Proof.
  intros Hwf Hr Hc. unfold np_setitem.
  rewrite np_index_in by (destruct Hwf as [-> _]; lia).
  destruct (lookup_lt_is_Some_2 b (Z.to_nat r)) as [line Hl].
  { destruct Hwf as [-> _]. lia. }
  rewrite Hl. pose proof (wf_board_line _ _ _ Hwf Hl) as Hlen.
  rewrite np_index_in by lia.
  eexists. split; [done|]. split; [|split].
  - destruct Hwf as [Hrows Hall]. split; [by rewrite length_insert|].
    apply Forall_insert; [done|]. by rewrite length_insert.
  - unfold cell. rewrite bool_decide_eq_true_2 by lia.
    rewrite list_lookup_insert_eq by (destruct Hwf as [-> _]; lia). simpl.
    apply list_lookup_insert_eq. lia.
  - intros r' c' Hne. unfold cell. case_bool_decide as Hpos; [|done].
    destruct (decide (Z.to_nat r = Z.to_nat r')) as [Heq|Hneq].
    + rewrite <- Heq, Hl.
      rewrite list_lookup_insert_eq by (destruct Hwf as [-> _]; lia). simpl.
      apply list_lookup_insert_ne. intros Hcc.
      apply Hne. f_equal; lia.
    + by rewrite list_lookup_insert_ne.
Qed.

(** ** The loops of the win check *)

Section Walk.
Variable b : ndarray.
Variable piece : Z.
Hypothesis Hwf : wf_board b.

(** One evaluation of the loop condition. *)
Lemma walk_step (fuel : nat) (r c dr dc count : Z) :
  walk (S fuel) b r c dr dc piece count =
  if decide (on_grid_is b piece r c)
  then walk fuel b (r + dr) (c + dc) dr dc piece (count + 1)
  else Ok count.
Proof.
  simpl. destruct (decide (on_grid_is b piece r c)) as [(Hr & Hc & Hv)|Hno].
  - rewrite !bool_decide_eq_true_2 by done. simpl.
    destruct (np_getitem_cell b r c Hwf Hr Hc) as (v & Hv' & ->). simpl.
    rewrite bool_decide_eq_true_2; congruence.
  - case_bool_decide as Hr; [|done]. case_bool_decide as Hc; [|done]. simpl.
    destruct (np_getitem_cell b r c Hwf Hr Hc) as (v & Hv' & ->). simpl.
    rewrite bool_decide_eq_false_2; [done|].
    intros ->. apply Hno. done.
Qed.

(** Either the loop stops within [fuel] evaluations, having counted a run,
    or every cell it looked at held [piece]. *)
Lemma walk_cases (fuel : nat) (r c dr dc count : Z) :
  (∃ n, n < Z.of_nat fuel ∧ run_length b piece r c dr dc n ∧
        walk fuel b (r + dr) (c + dc) dr dc piece count = Ok (count + n)) ∨
  (walk fuel b (r + dr) (c + dc) dr dc piece count = Diverge ∧
   ∀ k, 1 ≤ k ≤ Z.of_nat fuel → on_grid_is b piece (r + k * dr) (c + k * dc)).
Proof.
  revert r c count. induction fuel as [|fuel IH]; intros r c count.
  { right. split; [done|]. intros k Hk. lia. }
  rewrite walk_step. destruct (decide (on_grid_is b piece (r + dr) (c + dc))) as [Hin|Hout].
  - destruct (IH (r + dr) (c + dc) (count + 1)) as [(n & Hn & Hrun & Hw)|[Hw Hall]].
    + left. exists (n + 1). split; [lia|]. split.
      * destruct Hrun as (Hn0 & Hk & Hstop). split; [lia|]. split.
        -- intros k Hk1. destruct (decide (k = 1)) as [->|Hk2].
           ++ by replace (r + 1 * dr) with (r + dr) by lia;
                 replace (c + 1 * dc) with (c + dc) by lia.
           ++ replace (r + k * dr) with (r + dr + (k - 1) * dr) by lia.
              replace (c + k * dc) with (c + dc + (k - 1) * dc) by lia.
              apply Hk. lia.
        -- replace (r + (n + 1 + 1) * dr) with (r + dr + (n + 1) * dr) by lia.
           by replace (c + (n + 1 + 1) * dc) with (c + dc + (n + 1) * dc) by lia.
      * rewrite Hw. f_equal. lia.
    + right. split; [done|]. intros k Hk.
      destruct (decide (k = 1)) as [->|Hk2].
      * by replace (r + 1 * dr) with (r + dr) by lia;
           replace (c + 1 * dc) with (c + dc) by lia.
      * replace (r + k * dr) with (r + dr + (k - 1) * dr) by lia.
        replace (c + k * dc) with (c + dc + (k - 1) * dc) by lia.
        apply Hall. lia.
  - left. exists 0. split; [lia|]. split.
    + split; [lia|]. split; [intros k Hk; lia|].
      by replace (r + (0 + 1) * dr) with (r + dr) by lia;
         replace (c + (0 + 1) * dc) with (c + dc) by lia.
    + f_equal. lia.
Qed.

(** A ray that moves cannot stay on the grid for [walk_fuel] cells. *)
Lemma ray_leaves_grid (r c dr dc : Z) :
  (dr, dc) ≠ (0, 0) →
  ¬ ∀ k, 1 ≤ k ≤ Z.of_nat walk_fuel → on_grid_is b piece (r + k * dr) (c + k * dc).
Proof.
  intros Hd Hall.
  destruct (Hall 1) as (Hr1 & Hc1 & _); [unfold walk_fuel, ROWS, COLS; lia|].
  destruct (Hall 13) as (Hr2 & Hc2 & _); [unfold walk_fuel, ROWS, COLS; lia|].
  unfold ROWS, COLS in *.
  assert (dr = 0) by lia. assert (dc = 0) by lia. subst. done.
Qed.

(** The loop terminates on every axis and counts the run. *)
Lemma walk_total (r c dr dc count : Z) :
  (dr, dc) ≠ (0, 0) →
  ∃ n, run_length b piece r c dr dc n ∧
       walk walk_fuel b (r + dr) (c + dc) dr dc piece count = Ok (count + n).
Proof.
  intros Hd.
  destruct (walk_cases walk_fuel r c dr dc count) as [(n & _ & Hrun & Hw)|[_ Hall]].
  - by exists n.
  - by destruct (ray_leaves_grid r c dr dc Hd).
Qed.

(** More fuel than [walk_fuel] changes nothing. *)
Lemma walk_fuel_enough (fuel : nat) (r c dr dc count : Z) :
  (dr, dc) ≠ (0, 0) → (walk_fuel ≤ fuel)%nat →
  walk fuel b (r + dr) (c + dc) dr dc piece count =
  walk walk_fuel b (r + dr) (c + dc) dr dc piece count.
Proof.
  intros Hd Hle.
  destruct (walk_total r c dr dc count Hd) as (n & Hn & ->).
  destruct (walk_cases fuel r c dr dc count) as [(n' & _ & Hn' & ->)|[_ Hall]].
  - f_equal. f_equal.
    destruct Hn as (H0 & Hk & Hs), Hn' as (H0' & Hk' & Hs').
    destruct (Z.lt_trichotomy n n') as [Hlt|[->|Hgt]]; [|done|].
    + destruct Hs. apply Hk'. lia.
    + destruct Hs'. apply Hk. lia.
  - destruct (ray_leaves_grid r c dr dc Hd). intros k Hk. apply Hall. lia.
Qed.

Lemma run_length_unique (r c dr dc n n' : Z) :
  run_length b piece r c dr dc n → run_length b piece r c dr dc n' → n = n'.
Proof.
  intros (H0 & Hk & Hs) (H0' & Hk' & Hs').
  destruct (Z.lt_trichotomy n n') as [Hlt|[->|Hgt]]; [|done|].
  - destruct Hs. apply Hk'. lia.
  - destruct Hs'. apply Hk. lia.
Qed.

Lemma line_length_unique (r c dr dc t t' : Z) :
  line_length b piece r c dr dc t → line_length b piece r c dr dc t' → t = t'.
Proof.
  intros (nf & nb & Hf & Hb & ->) (nf' & nb' & Hf' & Hb' & ->).
  by rewrite (run_length_unique _ _ _ _ _ _ Hf Hf'),
             (run_length_unique _ _ _ _ _ _ Hb Hb').
Qed.

(** [_count_consecutive] returns the length of the line. *)
Lemma count_consecutive_line (row col dr dc : Z) :
  (dr, dc) ≠ (0, 0) →
  ∃ t, line_length b piece row col dr dc t ∧
       _count_consecutive b row col dr dc piece = Ok t.
Proof.
  intros Hd. unfold _count_consecutive.
  destruct (walk_total row col dr dc 1 Hd) as (nf & Hf & ->). simpl.
  assert ((- dr, - dc) ≠ (0, 0)) as Hd'.
  { intros [= H1 H2]. apply Hd. f_equal; lia. }
  destruct (walk_total row col (- dr) (- dc) (1 + nf) Hd') as (nb & Hb & Hw).
  exists (1 + nf + nb). split; [by exists nf, nb|]. exact Hw.
Qed.

(** The [for] loop over a list of axes. *)
Lemma any_direction_spec (ds : list (Z * Z)) (row col : Z) :
  Forall (λ d, d ≠ (0, 0)) ds →
  ∃ w, any_direction ds b row col piece = Ok w ∧
       (w = true ↔
        ∃ d t, d ∈ ds ∧ line_length b piece row col d.1 d.2 t ∧ CONNECT ≤ t).
Proof.
  induction 1 as [|[dr dc] ds Hd Hds IH].
  { exists false. split; [done|]. split; [done|].
    intros (d & t & Hin & _). by apply elem_of_nil in Hin. }
  simpl. destruct (count_consecutive_line row col dr dc Hd) as (t & Ht & ->).
  simpl. case_bool_decide as Hge.
  - exists true. split; [done|]. split; [|done]. intros _.
    exists (dr, dc), t. split; [left|]. split; [done|lia].
  - destruct IH as (w & -> & Hw). exists w. split; [done|].
    rewrite Hw. split.
    + intros (d & t' & Hin & Hl & Hc). exists d, t'. split; [by right|done].
    + intros (d & t' & Hin & Hl & Hc).
      apply elem_of_cons in Hin as [->|Hin].
      * simpl in Hl. rewrite (line_length_unique _ _ _ _ _ _ Hl Ht) in Hc. lia.
      * by exists d, t'.
Qed.
End Walk.

Lemma directions_nonzero : Forall (λ d, d ≠ (0, 0)) directions.
Proof. unfold directions. repeat constructor; done. Qed.

(** The win check at a cell of the grid: it returns, and says whether a line
    of four runs through the cell. *)
Lemma is_winning_move_spec (b : ndarray) (row col piece : Z) :
  wf_board b → 0 ≤ row < ROWS → 0 ≤ col < COLS →
  cell b row col = Some piece →
  ∃ w, _is_winning_move b row col = Ok w ∧
       (w = true ↔ four_in_line b piece row col).
Proof.
  intros Hwf Hr Hc Hp. unfold _is_winning_move.
  destruct (np_getitem_cell b row col Hwf Hr Hc) as (v & Hv & ->).
  assert (v = piece) as -> by congruence.
  change (Ok piece ≫= any_direction directions b row col)
    with (any_direction directions b row col piece).
  apply any_direction_spec; [done|apply directions_nonzero].
Qed.

(** ** drop_piece, branch by branch *)

Lemma drop_piece_unfold (col : Z) (s : GameState) :
  drop_piece col s =
  if game_over s then (Raise InvalidState, s)
  else if bool_decide (0 ≤ col < COLS) then
    match _next_row s !! col with
    | None => (Raise (KeyError col), s)
    | Some row =>
        if bool_decide (row < 0) then (Raise ColumnFull, s)
        else match np_setitem (board s) row col (current_player s) with
             | Ok b' =>
                 match _is_winning_move b' row col with
                 | Ok won => (Ok (row, col), conclude won (placed s row col b'))
                 | Raise e => (Raise e, placed s row col b')
                 | Diverge => (Diverge, placed s row col b')
                 end
             | Raise e => (Raise e, s)
             | Diverge => (Diverge, s)
             end
    end
  else (Raise InvalidColumn, s).
Proof.
  unfold drop_piece, mbind, M_bind, gets, raise, lift, modify, mret, M_ret.
  destruct (game_over s) eqn:Hover; [done|].
  case_bool_decide as Hcol; simpl; [|done].
  unfold dict_getitem. destruct (_next_row s !! col) as [row|] eqn:Hrow; [|done].
  case_bool_decide as Hneg; [done|].
  destruct (np_setitem (board s) row col (current_player s)) as [b'| |]; [|done..].
  simpl. rewrite Hrow.
  destruct (_is_winning_move b' row col) as [[]| |]; try done.
  unfold conclude, placed. simpl. by case_bool_decide.
Qed.

(** On a state of the data model the disc is always placed and the win
    check always returns. *)
Lemma drop_piece_success (col row : Z) (s : GameState) :
  wf_state s → game_over s = false → 0 ≤ col < COLS →
  _next_row s !! col = Some row → 0 ≤ row →
  ∃ b' won,
    np_setitem (board s) row col (current_player s) = Ok b' ∧
    wf_board b' ∧
    cell b' row col = Some (current_player s) ∧
    (∀ r c, (r, c) ≠ (row, col) → cell b' r c = cell (board s) r c) ∧
    _is_winning_move b' row col = Ok won ∧
    (won = true ↔ four_in_line b' (current_player s) row col) ∧
    drop_piece col s = (Ok (row, col), conclude won (placed s row col b')).
Proof.
  intros [Hwf Hnext] Hover Hcol Hrow Hpos.
  destruct (Hnext col Hcol) as (row' & Hrow' & Hrange).
  assert (row' = row) as -> by congruence.
  destruct (np_setitem_cell (board s) row col (current_player s) Hwf)
    as (b' & Hset & Hwf' & Hnew & Hold); [lia|done|].
  destruct (is_winning_move_spec b' row col (current_player s) Hwf')
    as (won & Hwin & Hiff); [lia|done|done|].
  exists b', won. do 6 (split; [done|]).
  rewrite drop_piece_unfold, Hover, Hrow, Hset, Hwin.
  rewrite bool_decide_eq_true_2 by done.
  by rewrite bool_decide_eq_false_2 by lia.
Qed.

(** What a successful call did, read off its result. *)
Lemma drop_piece_ok_inv (col : Z) (s s' : GameState) (pos : Z * Z) :
  drop_piece col s = (Ok pos, s') →
  ∃ row b' won,
    pos = (row, col) ∧ game_over s = false ∧ 0 ≤ col < COLS ∧
    _next_row s !! col = Some row ∧ 0 ≤ row ∧
    np_setitem (board s) row col (current_player s) = Ok b' ∧
    _is_winning_move b' row col = Ok won ∧
    s' = conclude won (placed s row col b').
Proof.
  rewrite drop_piece_unfold. destruct (game_over s); [done|].
  case_bool_decide as Hcol; [|done].
  destruct (_next_row s !! col) as [row|]; [|done].
  case_bool_decide as Hneg; [done|].
  destruct (np_setitem _ _ _ _) as [b'| |] eqn:Hset; [|done..].
  destruct (_is_winning_move _ _ _) as [won| |] eqn:Hwin; [|done..].
  intros [= <- <-]. exists row, b', won.
  split; [done|]. split; [done|]. split; [done|]. split; [done|].
  split; [lia|]. done.
Qed.

(** ** Counting discs *)

Lemma filter_length_insert (P : Z → Prop) `{!∀ x, Decision (P x)}
    (l : list Z) (j : nat) (x old : Z) :
  l !! j = Some old →
  (length (filter P (<[j := x]> l)) + (if decide (P old) then 1 else 0) =
   length (filter P l) + (if decide (P x) then 1 else 0))%nat.
Proof.
  intros Hj. pose proof (lookup_lt_Some _ _ _ Hj) as Hlt.
  rewrite insert_take_drop by done.
  rewrite <- (take_drop_middle l j old Hj) at 3.
  rewrite !filter_app, !filter_cons, !length_app.
  destruct (decide (P old)), (decide (P x)); simpl; lia.
Qed.

Lemma count_discs_setitem (b b' : ndarray) (r c v : Z) :
  wf_board b → 0 ≤ r < ROWS → 0 ≤ c < COLS →
  cell b r c = Some EMPTY → v ≠ EMPTY →
  np_setitem b r c v = Ok b' →
  count_discs b' = count_discs b + 1.
Proof.
  intros Hwf Hr Hc Hcell Hv. unfold np_setitem.
  rewrite np_index_in by (destruct Hwf as [-> _]; lia).
  destruct (b !! Z.to_nat r) as [line|] eqn:Hl; [|done].
  rewrite np_index_in by (rewrite (wf_board_line _ _ _ Hwf Hl); lia).
  intros [= <-]. unfold count_discs.
  revert Hcell. unfold cell. rewrite bool_decide_eq_true_2 by lia.
  rewrite Hl. simpl. intros Hold.
  pose proof (lookup_lt_Some _ _ _ Hl) as Hlt.
  rewrite insert_take_drop by done.
  rewrite <- (take_drop_middle b (Z.to_nat r) line Hl) at 3.
  rewrite !concat_app, !concat_cons, !filter_app, !length_app.
  pose proof (filter_length_insert (λ v, v ≠ EMPTY) line (Z.to_nat c) v EMPTY Hold) as Hcount.
  destruct (decide (EMPTY ≠ EMPTY)); [done|].
  destruct (decide (v ≠ EMPTY)); [|done]. lia.
Qed.

Lemma count_discs_zeros : count_discs (np_zeros ROWS COLS) = 0.
Proof. vm_compute. reflexivity. Qed.

Lemma filter_ext_in {A} (P Q : A → Prop) `{!∀ x, Decision (P x)}
    `{!∀ x, Decision (Q x)} (l : list A) :
  (∀ x, x ∈ l → P x ↔ Q x) → filter P l = filter Q l.
Proof.
  induction l as [|x l IH]; intros Hext; [done|].
  rewrite !filter_cons.
  rewrite IH by (intros y Hy; apply Hext; by right).
  destruct (decide (P x)) as [HP|HP], (decide (Q x)) as [HQ|HQ]; try done.
  - destruct HQ. apply Hext; [left|done].
  - destruct HP. apply Hext; [left|done].
Qed.

(** The rows strictly below [nr], bottom rows of the grid. *)
Lemma rows_below (nr : Z) :
  -1 ≤ nr < ROWS →
  filter (λ r, nr < r) (seqZ 0 ROWS) = seqZ (nr + 1) (ROWS - (nr + 1)).
Proof.
  intros Hnr. unfold ROWS in *.
  assert (nr = -1 ∨ nr = 0 ∨ nr = 1 ∨ nr = 2 ∨ nr = 3 ∨ nr = 4 ∨ nr = 5)
    as Hcases by lia.
  repeat (destruct Hcases as [->|Hcases]; [vm_compute; reflexivity|]).
  subst. vm_compute. reflexivity.
Qed.

(** ** The invariant holds along every game *)

Lemma dict_of_range_lookup (c : Z) :
  0 ≤ c < COLS → dict_of_range COLS (ROWS - 1) !! c = Some (ROWS - 1).
Proof.
  intros Hc. unfold COLS in Hc.
  assert (c = 0 ∨ c = 1 ∨ c = 2 ∨ c = 3 ∨ c = 4 ∨ c = 5 ∨ c = 6) as Hcases by lia.
  repeat (destruct Hcases as [->|Hcases]; [vm_compute; reflexivity|]).
  subst. vm_compute. reflexivity.
Qed.

Lemma np_zeros_wf : wf_board (np_zeros ROWS COLS).
Proof. split; [done|]. unfold np_zeros. repeat constructor. Qed.

Lemma np_zeros_cell (r c v : Z) :
  cell (np_zeros ROWS COLS) r c = Some v → v = EMPTY.
Proof.
  unfold cell, np_zeros. case_bool_decide; [|done].
  destruct (replicate _ _ !! Z.to_nat r) as [line|] eqn:Hl; [|done].
  apply lookup_replicate in Hl as [-> _].
  unfold mbind, option_bind. intros Hv. by apply lookup_replicate in Hv as [-> _].
Qed.

Lemma new_game_inv : game_inv new_game.
Proof.
  split; [apply np_zeros_wf|]. split; [|split; [by left|split; [|done]]].
  - intros c Hc. exists (ROWS - 1). split; [by apply dict_of_range_lookup|].
    split; [unfold ROWS; lia|]. intros r Hr. split; [lia|]. intros _.
    destruct (wf_board_cell _ r c np_zeros_wf Hr Hc) as [v Hv].
    simpl. rewrite Hv. f_equal. by apply np_zeros_cell in Hv.
  - intros r c v Hv. left. by apply np_zeros_cell in Hv.
Qed.

Lemma game_inv_wf_state (s : GameState) : game_inv s → wf_state s.
Proof.
  intros (Hwf & Hg & _). split; [done|].
  intros c Hc. destruct (Hg c Hc) as (nr & Hnr & Hrange & _). by exists nr.
Qed.

Lemma conclude_fields (won : bool) (s : GameState) :
  board (conclude won s) = board s ∧
  _next_row (conclude won s) = _next_row s ∧
  moves_made (conclude won s) = moves_made s.
Proof. unfold conclude. destruct won; repeat case_bool_decide; done. Qed.

Lemma conclude_player (won : bool) (s : GameState) :
  is_player (current_player s) → is_player (current_player (conclude won s)).
Proof.
  unfold conclude. destruct won; [done|].
  case_bool_decide; [done|]. simpl. case_bool_decide; [by right|by left].
Qed.

Lemma conclude_winner (won : bool) (s : GameState) :
  (game_over s = false → winner s = None) →
  game_over (conclude won s) = false → winner (conclude won s) = None.
Proof.
  unfold conclude. destruct won; [done|]. case_bool_decide; [done|]. simpl. done.
Qed.

Lemma is_player_not_empty (p : Z) : is_player p → p ≠ EMPTY.
Proof. by intros [->| ->]. Qed.

(** One successful move: where the disc went, what changed, and the
    invariant afterwards. *)
Lemma drop_piece_step (col : Z) (s s' : GameState) (pos : Z * Z) :
  game_inv s → drop_piece col s = (Ok pos, s') →
  ∃ row,
    pos = (row, col) ∧ 0 ≤ col < COLS ∧ 0 ≤ row < ROWS ∧
    _next_row s !! col = Some row ∧
    cell (board s) row col = Some EMPTY ∧
    cell (board s') row col = Some (current_player s) ∧
    (∀ r c, (r, c) ≠ (row, col) → cell (board s') r c = cell (board s) r c) ∧
    _next_row s' = <[col := row - 1]> (_next_row s) ∧
    moves_made s' = moves_made s + 1 ∧
    game_inv s'.
Proof.
  intros Hinv Hdrop.
  destruct (drop_piece_ok_inv _ _ _ _ Hdrop)
    as (row & b' & won & -> & Hover & Hcol & Hrow & Hpos & Hset & Hwin & ->).
  destruct Hinv as (Hwf & Hg & Hp & Hcells & Hcount & Hw).
  destruct (Hg col Hcol) as (nr & Hnr & Hrange & Hcolumn).
  assert (nr = row) as -> by congruence.
  assert (0 ≤ row < ROWS) as Hr by lia.
  destruct (np_setitem_cell (board s) row col (current_player s) Hwf Hr Hcol)
    as (b'' & Hset' & Hwf' & Hnew & Hold).
  assert (b'' = b') as -> by congruence.
  assert (cell (board s) row col = Some EMPTY) as Hempty by (apply Hcolumn; lia).
  destruct (conclude_fields won (placed s row col b')) as (Hb & Hn & Hm).
  exists row. rewrite Hb, Hn, Hm. simpl.
  do 9 (split; [done|]).
  split; [by rewrite Hb|]. split; [|split; [|split; [|split]]].
  - intros c Hc. rewrite Hb, Hn. simpl.
    destruct (decide (c = col)) as [->|Hne].
    + exists (row - 1). rewrite lookup_insert_eq. split; [done|]. split; [lia|].
      intros r Hr'. destruct (decide (r = row)) as [->|Hrne].
      * rewrite Hnew. split; [|lia]. intros [= Hcp].
        by apply is_player_not_empty in Hp.
      * rewrite Hold by congruence. rewrite Hcolumn by done. lia.
    + destruct (Hg c Hc) as (nr & Hnr' & Hrange' & Hcolumn').
      exists nr. rewrite lookup_insert_ne by done. split; [done|]. split; [done|].
      intros r Hr'. rewrite Hold by congruence. by apply Hcolumn'.
  - by apply conclude_player.
  - intros r c v. rewrite Hb. simpl.
    destruct (decide ((r, c) = (row, col))) as [[= -> ->]|Hne].
    + rewrite Hnew. intros [= <-]. by right.
    + rewrite Hold by done. apply Hcells.
  - rewrite Hm, Hb. simpl. rewrite Hcount.
    symmetry. eapply count_discs_setitem; try done.
    by apply is_player_not_empty.
  - by apply conclude_winner.
Qed.

(** ** Games as lists of moves *)

Lemma play_app (cols cols' : list Z) (s : GameState) :
  play (cols ++ cols') s = play cols s ≫= play cols'.
Proof.
  revert s. induction cols as [|col cols IH]; intros s; [done|].
  simpl. destruct (drop_piece col s) as [[pos| |] s1]; [apply IH|done..].
Qed.

Lemma play_snoc (cols : list Z) (col : Z) (s : GameState) :
  play (cols ++ [col]) s = play cols s ≫= then_drop col.
Proof.
  rewrite play_app. destruct (play cols s) as [s1|]; [|done]. simpl.
  unfold then_drop. by destruct (drop_piece col s1) as [[pos| |] s2].
Qed.

Lemma drops_into_snoc (c col : Z) (cols : list Z) :
  drops_into c (cols ++ [col]) =
  drops_into c cols + (if decide (col = c) then 1 else 0).
Proof.
  unfold drops_into. rewrite filter_app, length_app, filter_cons, filter_nil.
  destruct (decide (col = c)); simpl; lia.
Qed.

(** Along a game the invariant holds and every column's next free row has
    gone up by the number of discs dropped into it. *)
Lemma play_inv (cols : list Z) (s : GameState) :
  play cols new_game = Some s →
  game_inv s ∧
  moves_made s = Z.of_nat (length cols) ∧
  ∀ c, 0 ≤ c < COLS → _next_row s !! c = Some (ROWS - 1 - drops_into c cols).
Proof.
  revert s. induction cols as [|col cols IH] using rev_ind; intros s.
  { intros [= <-]. split; [apply new_game_inv|]. split; [done|].
    intros c Hc. simpl. rewrite dict_of_range_lookup by done.
    f_equal. }
  rewrite play_snoc. destruct (play cols new_game) as [s1|]; [|done].
  simpl. unfold then_drop.
  destruct (drop_piece col s1) as [[pos| |] s2] eqn:Hdrop; [|done..].
  intros [= <-]. destruct (IH s1 eq_refl) as (Hinv & Hmoves & Hnext).
  destruct (drop_piece_step _ _ _ _ Hinv Hdrop)
    as (row & -> & Hcol & Hr & Hrow & _ & _ & _ & Hn & Hm & Hinv').
  split; [done|]. split; [rewrite Hm, Hmoves, length_app; simpl; lia|].
  intros c Hc. rewrite Hn, drops_into_snoc.
  destruct (decide (col = c)) as [->|Hne].
  - rewrite lookup_insert_eq. f_equal.
    rewrite Hnext in Hrow by done. injection Hrow as <-. lia.
  - rewrite lookup_insert_ne by done. rewrite Hnext by done. f_equal. lia.
Qed.

Lemma reachable_inv (s : GameState) : reachable s → game_inv s.
Proof. intros [cols Hplay]. by apply play_inv in Hplay as [? _]. Qed.

(** ** Failures *)

Lemma np_getitem_raises (b : ndarray) (r c : Z) (e : exn) :
  np_getitem b r c = Raise e → e = IndexError.
Proof.
  unfold np_getitem. repeat case_match; congruence.
Qed.

Lemma walk_raises (fuel : nat) (b : ndarray) (r c dr dc piece count : Z) (e : exn) :
  walk fuel b r c dr dc piece count = Raise e → e = IndexError.
Proof.
  revert r c count. induction fuel as [|fuel IH]; intros r c count; [done|].
  simpl. case_match; [|done].
  destruct (np_getitem b r c) as [v| |] eqn:Hget; simpl; [| |done].
  - destruct (bool_decide (v = piece)); [apply IH|done].
  - intros [= <-]. by apply np_getitem_raises in Hget.
Qed.

Lemma count_consecutive_raises (b : ndarray) (row col dr dc piece : Z) (e : exn) :
  _count_consecutive b row col dr dc piece = Raise e → e = IndexError.
Proof.
  unfold _count_consecutive. generalize walk_fuel. intros fuel.
  destruct (walk fuel b (row + dr) (col + dc) dr dc piece 1)
    as [n| |] eqn:Hf; simpl; [| |done].
  - apply walk_raises.
  - intros [= <-]. by apply walk_raises in Hf.
Qed.

Lemma is_winning_move_raises (b : ndarray) (row col : Z) (e : exn) :
  _is_winning_move b row col = Raise e → e = IndexError.
Proof.
  unfold _is_winning_move.
  destruct (np_getitem b row col) as [piece| |] eqn:Hget;
    unfold mbind, outcome_bind; [| |done].
  2:{ intros [= <-]. by apply np_getitem_raises in Hget. }
  generalize directions. intros ds. induction ds as [|[dr dc] ds IH]; [done|].
  cbn [any_direction].
  destruct (_count_consecutive b row col dr dc piece) as [n| |] eqn:Hn;
    unfold mbind, outcome_bind; [| |done].
  - destruct (bool_decide (n >= CONNECT)); [done|apply IH].
  - intros [= <-]. by apply count_consecutive_raises in Hn.
Qed.

Lemma errors_distinct :
  InvalidState ≠ InvalidColumn ∧ InvalidState ≠ ColumnFull ∧
  InvalidColumn ≠ ColumnFull ∧
  InvalidState ≠ IndexError ∧ InvalidColumn ≠ IndexError ∧ ColumnFull ≠ IndexError.
Proof. repeat split; intros H; by vm_compute in H. Qed.

(** A call on a finished game is refused and changes nothing. *)
Lemma drop_piece_finished (col : Z) (s : GameState) :
  game_over s = true → drop_piece col s = (Raise InvalidState, s).
Proof. intros Hover. by rewrite drop_piece_unfold, Hover. Qed.

(** On a state of the data model a call either returns a position or
    raises without having written anything. *)
Lemma drop_piece_wf_cases (col : Z) (s : GameState) :
  wf_state s →
  (∃ e, drop_piece col s = (Raise e, s) ∧
        (e = InvalidState ∨ e = InvalidColumn ∨ e = ColumnFull)) ∨
  (∃ row s', drop_piece col s = (Ok (row, col), s')).
Proof.
  intros Hwf. destruct (game_over s) eqn:Hover.
  { left. exists InvalidState. split; [by apply drop_piece_finished|by left]. }
  destruct (decide (0 ≤ col < COLS)) as [Hcol|Hcol].
  - destruct (proj2 Hwf col Hcol) as (row & Hrow & Hrange).
    destruct (decide (row < 0)) as [Hneg|Hpos].
    + left. exists ColumnFull. split; [|by right; right].
      rewrite drop_piece_unfold, Hover, Hrow.
      by rewrite !bool_decide_eq_true_2.
    + right. destruct (drop_piece_success col row s Hwf Hover Hcol Hrow)
        as (b' & won & _ & _ & _ & _ & _ & _ & Hdrop); [lia|].
      by eexists row, _.
  - left. exists InvalidColumn. split; [|by right; left].
    rewrite drop_piece_unfold, Hover. by rewrite bool_decide_eq_false_2.
Qed.

(** A line of four found by running the check. *)
Lemma four_in_line_by_check (b : ndarray) (row col piece : Z) :
  wf_board b → 0 ≤ row < ROWS → 0 ≤ col < COLS → cell b row col = Some piece →
  (_is_winning_move b row col = Ok true → four_in_line b piece row col) ∧
  (_is_winning_move b row col = Ok false → ¬ four_in_line b piece row col).
Proof.
  intros Hwf Hr Hc Hp.
  destruct (is_winning_move_spec b row col piece Hwf Hr Hc Hp) as (w & -> & Hiff).
  split; intros [= ->]; [by apply Hiff|].
  intros Hfour. by apply Hiff in Hfour.
Qed.

Lemma state_after_play (cols : list Z) (s : GameState) :
  play cols new_game = Some s → state_after cols = s.
Proof. unfold state_after. by intros ->. Qed.

(** Nothing the API offers leads out of the reachable states: a refused
    drop and [is_draw] change nothing, a drop that returns extends the game,
    and [reset] starts a new one. *)
Lemma reachable_closed (s : GameState) (col : Z) :
  reachable s →
  reachable (drop_piece col s).2 ∧ reachable (reset s).2 ∧ reachable (is_draw s).2.
Proof.
  intros Hreach. split; [|split; [by exists []|done]].
  destruct (drop_piece_wf_cases col s (game_inv_wf_state s (reachable_inv s Hreach)))
    as [(e & -> & _)|(row & s' & Hok)]; [done|].
  rewrite Hok. destruct Hreach as [cols Hplay]. exists (cols ++ [col]).
  rewrite play_snoc, Hplay. simpl. unfold then_drop. by rewrite Hok.
Qed.

(** ** The properties of the move API *)

(** C1.  In a state of the data model where the game is not over, a drop
    into a column [col] of the grid whose next free row [row] is not
    negative returns [(row, col)], puts the current player's disc in that
    cell and in no other, lowers the column's next free row by one and
    raises [moves_made] by one. *)
Theorem drop_piece_places_disc (s : GameState) (col row : Z) :
  wf_state s → game_over s = false → 0 ≤ col < COLS →
  _next_row s !! col = Some row → 0 ≤ row →
  ∃ s', drop_piece col s = (Ok (row, col), s') ∧
        cell (board s') row col = Some (current_player s) ∧
        (∀ r c, (r, c) ≠ (row, col) → cell (board s') r c = cell (board s) r c) ∧
        _next_row s' = <[col := row - 1]> (_next_row s) ∧
        moves_made s' = moves_made s + 1.
Proof.
  intros Hwf Hover Hcol Hrow Hpos.
  destruct (drop_piece_success col row s Hwf Hover Hcol Hrow Hpos)
    as (b' & won & _ & _ & Hnew & Hold & _ & _ & Hdrop).
  destruct (conclude_fields won (placed s row col b')) as (Hb & Hn & Hm).
  eexists. split; [exact Hdrop|]. rewrite Hb, Hn, Hm. done.
Qed.

Lemma drop_piece_places_disc_witness :
  game_over new_game = false ∧ _next_row new_game !! 3 = Some 5 ∧
  ∃ s', drop_piece 3 new_game = (Ok (5, 3), s') ∧
        cell (board s') 5 3 = Some (current_player new_game) ∧
        (∀ r c, (r, c) ≠ (5, 3) → cell (board s') r c = cell (board new_game) r c) ∧
        _next_row s' = <[3 := 5 - 1]> (_next_row new_game) ∧
        moves_made s' = moves_made new_game + 1.
Proof.
  split; [reflexivity|]. split; [reflexivity|].
  apply (drop_piece_places_disc new_game 3 5).
  - exact (game_inv_wf_state new_game new_game_inv).
  - reflexivity.
  - unfold COLS. lia.
  - reflexivity.
  - lia.
Defined.

(** C2.  On a grid of the right shape, the win check at a cell of the grid
    holding [piece] returns, and it answers True exactly when on one of the
    four axes (0,1), (1,0), (1,1), (1,-1) the cell itself plus the runs of
    cells holding [piece] on both sides of it, each run taken while on the
    grid, number [CONNECT] = 4 or more. *)
Theorem win_check_counts_both_ways (b : ndarray) (row col piece : Z) :
  wf_board b → 0 ≤ row < ROWS → 0 ≤ col < COLS →
  cell b row col = Some piece →
  ∃ w, _is_winning_move b row col = Ok w ∧
       (w = true ↔
        ∃ dr dc nf nb,
          (dr, dc) ∈ [(0, 1); (1, 0); (1, 1); (1, -1)] ∧
          run_length b piece row col dr dc nf ∧
          run_length b piece row col (- dr) (- dc) nb ∧
          4 ≤ 1 + nf + nb).
Proof.
  intros Hwf Hr Hc Hp.
  destruct (is_winning_move_spec b row col piece Hwf Hr Hc Hp) as (w & Hw & Hiff).
  exists w. split; [done|]. rewrite Hiff. unfold four_in_line. split.
  - intros ([dr dc] & t & Hin & (nf & nb & Hf & Hb & ->) & Ht).
    by exists dr, dc, nf, nb.
  - intros (dr & dc & nf & nb & Hin & Hf & Hb & Ht).
    exists (dr, dc), (1 + nf + nb). split; [done|]. split; [|done].
    by exists nf, nb.
Qed.

Lemma win_check_counts_both_ways_witness :
  ∃ w, _is_winning_move (board (state_after column0_game)) 2 0 = Ok w ∧
       (w = true ↔
        ∃ dr dc nf nb,
          (dr, dc) ∈ [(0, 1); (1, 0); (1, 1); (1, -1)] ∧
          run_length (board (state_after column0_game)) 1 2 0 dr dc nf ∧
          run_length (board (state_after column0_game)) 1 2 0 (- dr) (- dc) nb ∧
          4 ≤ 1 + nf + nb).
Proof.
  apply (win_check_counts_both_ways (board (state_after column0_game)) 2 0 1).
  - split; [reflexivity|]. vm_compute. repeat constructor.
  - unfold ROWS. lia.
  - unfold COLS. lia.
  - reflexivity.
Defined.

(** C3.  When a successful drop leaves a line of four or more of the
    mover's discs through the cell it filled, the game is over, the winner
    is the mover, and the mover is still the current player. *)
Theorem winning_drop_ends_game (s s' : GameState) (col row : Z) :
  wf_state s →
  drop_piece col s = (Ok (row, col), s') →
  four_in_line (board s') (current_player s) row col →
  game_over s' = true ∧
  winner s' = Some (current_player s) ∧
  current_player s' = current_player s.
Proof.
  intros Hwf Hdrop Hfour.
  destruct (drop_piece_ok_inv _ _ _ _ Hdrop)
    as (row' & b' & won & [= <-] & Hover & Hcol & Hrow & Hpos & _ & _ & _).
  destruct (drop_piece_success col row s Hwf Hover Hcol Hrow Hpos)
    as (b'' & won' & _ & _ & _ & _ & _ & Hiff & Hdrop').
  rewrite Hdrop' in Hdrop. injection Hdrop as <-.
  destruct (conclude_fields won' (placed s row col b'')) as (Hb & _ & _).
  rewrite Hb in Hfour. simpl in Hfour. apply Hiff in Hfour as ->. done.
Qed.

Lemma winning_drop_ends_game_witness :
  drop_piece 0 (state_after [0; 1; 0; 1; 0; 1])
    = (Ok (2, 0), state_after column0_game) ∧
  game_over (state_after column0_game) = true ∧
  winner (state_after column0_game) = Some (current_player (state_after [0; 1; 0; 1; 0; 1])) ∧
  current_player (state_after column0_game) = current_player (state_after [0; 1; 0; 1; 0; 1]).
Proof.
  split; [vm_compute; reflexivity|].
  apply (winning_drop_ends_game (state_after [0; 1; 0; 1; 0; 1])
           (state_after column0_game) 0 2).
  - apply game_inv_wf_state, reachable_inv. exists [0; 1; 0; 1; 0; 1].
    vm_compute. reflexivity.
  - vm_compute. reflexivity.
  - apply four_in_line_by_check.
    + split; [reflexivity|]. vm_compute. repeat constructor.
    + unfold ROWS. lia.
    + unfold COLS. lia.
    + reflexivity.
    + vm_compute. reflexivity.
Defined.

(** C4.  On a state of the data model [drop_piece] fails in three cases and
    no other, tested in this order: [InvalidState] (a RuntimeError) when the
    game is over; otherwise [InvalidColumn] (a ValueError about the range)
    when [col] is not in [0, COLS-1]; otherwise [ColumnFull] (a ValueError
    about the column) when the column's next free row is negative.  In the
    remaining case the call returns.  The three failures are different
    exceptions. *)
Theorem drop_piece_failures (s : GameState) (col : Z) :
  wf_state s →
  (game_over s = true → (drop_piece col s).1 = Raise InvalidState) ∧
  (game_over s = false → ¬ 0 ≤ col < COLS →
   (drop_piece col s).1 = Raise InvalidColumn) ∧
  (game_over s = false → 0 ≤ col < COLS →
   ∃ row, _next_row s !! col = Some row ∧
          (row < 0 → (drop_piece col s).1 = Raise ColumnFull) ∧
          (0 ≤ row → (drop_piece col s).1 = Ok (row, col))) ∧
  InvalidState = RuntimeError msg_finished ∧
  InvalidColumn = ValueError msg_column ∧
  ColumnFull = ValueError msg_full ∧
  InvalidState ≠ InvalidColumn ∧ InvalidState ≠ ColumnFull ∧
  InvalidColumn ≠ ColumnFull.
Proof.
  intros Hwf. split; [|split; [|split]].
  - intros Hover. by rewrite drop_piece_finished.
  - intros Hover Hcol. rewrite drop_piece_unfold, Hover.
    by rewrite bool_decide_eq_false_2.
  - intros Hover Hcol. destruct (proj2 Hwf col Hcol) as (row & Hrow & Hrange).
    exists row. split; [done|]. split.
    + intros Hneg. rewrite drop_piece_unfold, Hover, Hrow.
      by rewrite !bool_decide_eq_true_2.
    + intros Hpos.
      destruct (drop_piece_success col row s Hwf Hover Hcol Hrow Hpos)
        as (b' & won & _ & _ & _ & _ & _ & _ & ->). done.
  - destruct errors_distinct as (H1 & H2 & H3 & _). done.
Qed.

Lemma drop_piece_failures_witness :
  (drop_piece 7 new_game).1 = Raise InvalidColumn ∧
  (drop_piece 3 new_game).1 = Ok (5, 3) ∧
  (drop_piece 3 (state_after column0_game)).1 = Raise InvalidState ∧
  (drop_piece 0 (state_after [0; 0; 0; 0; 0; 0])).1 = Raise ColumnFull.
Proof.
  split; [|split; [|split]].
  - apply (drop_piece_failures new_game 7
             (game_inv_wf_state new_game new_game_inv)).
    + reflexivity.
    + unfold COLS. lia.
  - vm_compute. reflexivity.
  - vm_compute. reflexivity.
  - vm_compute. reflexivity.
Defined.

(** C5.  A call of [drop_piece] that fails with [InvalidState],
    [InvalidColumn] or [ColumnFull] returns the object as it found it, every
    attribute included; on a state of the data model these are the only
    failures.  Once the game is over every [drop_piece] is such a failure,
    and the observer [is_draw] writes nothing either, so nothing but [reset]
    changes the object. *)
Theorem failed_drop_changes_nothing (s : GameState) (col : Z) :
  (∀ e, (drop_piece col s).1 = Raise e →
        e = InvalidState ∨ e = InvalidColumn ∨ e = ColumnFull →
        (drop_piece col s).2 = s) ∧
  (wf_state s → ∀ e, (drop_piece col s).1 = Raise e →
        (e = InvalidState ∨ e = InvalidColumn ∨ e = ColumnFull) ∧
        (drop_piece col s).2 = s) ∧
  (game_over s = true → drop_piece col s = (Raise InvalidState, s)) ∧
  (is_draw s).2 = s.
Proof.
  split; [|split; [|split]].
  - intros e. rewrite drop_piece_unfold.
    destruct (game_over s); [done|].
    case_bool_decide; [|done].
    destruct (_next_row s !! col) as [row|]; [|done].
    case_bool_decide; [done|].
    destruct (np_setitem _ _ _ _) as [b'| |]; [|done..].
    destruct (_is_winning_move _ _ _) as [won| |] eqn:Hwin; [done| |done].
    simpl. intros [= <-] Hkind. apply is_winning_move_raises in Hwin as ->.
    destruct errors_distinct as (_ & _ & _ & H1 & H2 & H3).
    destruct Hkind as [?|[?|?]]; done.
  - intros Hwf e He.
    destruct (drop_piece_wf_cases col s Hwf) as [(e' & Hd & Hkind)|(row & s' & Hd)];
      rewrite Hd in *; simpl in *; [|done].
    injection He as <-. done.
  - apply drop_piece_finished.
  - reflexivity.
Qed.

Lemma failed_drop_changes_nothing_witness :
  (drop_piece 7 new_game).1 = Raise InvalidColumn ∧
  (drop_piece 7 new_game).2 = new_game.
Proof.
  split; [reflexivity|].
  apply (proj1 (failed_drop_changes_nothing new_game 7) InvalidColumn).
  - reflexivity.
  - right. left. reflexivity.
Defined.

(** C6.  After a game [cols] of successful drops from a fresh game, every
    column [c] of the grid, into which [k] of the moves went, has next free
    row [nr] with [k = ROWS - (nr + 1)]; it holds that many discs, and its
    non-Empty cells are exactly the rows [ROWS-k, ..., ROWS-1], the bottom
    [k] rows. *)
Theorem gravity_columns (cols : list Z) (s : GameState) (c : Z) :
  play cols new_game = Some s → 0 ≤ c < COLS →
  ∃ nr, _next_row s !! c = Some nr ∧
        Z.of_nat (length (discs_in_column (board s) c)) = ROWS - (nr + 1) ∧
        drops_into c cols = ROWS - (nr + 1) ∧
        discs_in_column (board s) c
          = seqZ (ROWS - drops_into c cols) (drops_into c cols) ∧
        ∀ r, 0 ≤ r < ROWS →
             (cell (board s) r c ≠ Some EMPTY ↔ ROWS - drops_into c cols ≤ r).
Proof.
  intros Hplay Hc. destruct (play_inv cols s Hplay) as (Hinv & _ & Hnext).
  destruct Hinv as (_ & Hg & _).
  destruct (Hg c Hc) as (nr & Hnr & Hrange & Hcolumn).
  rewrite Hnext in Hnr by done. injection Hnr as Hnr.
  replace (drops_into c cols) with (ROWS - (nr + 1)) by lia.
  exists nr. split; [rewrite Hnext by done; f_equal; lia|].
  assert (discs_in_column (board s) c = seqZ (nr + 1) (ROWS - (nr + 1))) as Hdiscs.
  { unfold discs_in_column. rewrite <- rows_below by done.
    apply filter_ext_in. intros r Hr. apply elem_of_seqZ in Hr.
    rewrite Hcolumn by lia. lia. }
  split; [rewrite Hdiscs, length_seqZ; lia|]. split; [done|]. split.
  - rewrite Hdiscs. f_equal. lia.
  - intros r Hr. rewrite Hcolumn by done. lia.
Qed.

Lemma gravity_columns_witness :
  ∃ nr, _next_row (state_after column0_game) !! 0 = Some nr ∧
        Z.of_nat (length (discs_in_column (board (state_after column0_game)) 0))
          = ROWS - (nr + 1) ∧
        drops_into 0 column0_game = ROWS - (nr + 1) ∧
        discs_in_column (board (state_after column0_game)) 0
          = seqZ (ROWS - drops_into 0 column0_game) (drops_into 0 column0_game) ∧
        ∀ r, 0 ≤ r < ROWS →
             (cell (board (state_after column0_game)) r 0 ≠ Some EMPTY
              ↔ ROWS - drops_into 0 column0_game ≤ r).
Proof.
  apply (gravity_columns column0_game (state_after column0_game) 0).
  - vm_compute. reflexivity.
  - unfold COLS. lia.
Defined.

(** C7.  In every state reached from a fresh game by successful drops,
    [moves_made] is the number of non-Empty cells of the grid. *)
Theorem moves_made_counts_discs (s : GameState) :
  reachable s → moves_made s = count_discs (board s).
Proof.
  intros Hreach. by destruct (reachable_inv s Hreach) as (_ & _ & _ & _ & Hcount & _).
Qed.

Lemma moves_made_counts_discs_witness :
  moves_made (state_after draw_game) = count_discs (board (state_after draw_game)).
Proof.
  apply (moves_made_counts_discs (state_after draw_game)).
  exists draw_game. vm_compute. reflexivity.
Defined.

(** C8, as the specification words it, fails: the draw is not declared by a
    forty-third move.  In the drawn game [draw_game] the game is still open
    after forty-one moves, the forty-second move fills the last cell and
    sets [game_over] with no winner, and after it every further move is
    refused with [InvalidState]. *)
Lemma draw_declared_by_move_42 :
  length draw_game = 42%nat ∧
  play draw_game new_game = Some (state_after draw_game) ∧
  game_over (state_after (take 41 draw_game)) = false ∧
  drop_piece 5 (state_after (take 41 draw_game))
    = (Ok (0, 5), state_after draw_game) ∧
  count_discs (board (state_after draw_game)) = 42 ∧
  game_over (state_after draw_game) = true ∧
  winner (state_after draw_game) = None ∧
  (∀ col, drop_piece col (state_after draw_game)
          = (Raise InvalidState, state_after draw_game)) ∧
  ¬ ∃ col pos s', drop_piece col (state_after draw_game) = (Ok pos, s').
Proof.
  do 7 (split; [vm_compute; reflexivity|]).
  assert (∀ col, drop_piece col (state_after draw_game)
                 = (Raise InvalidState, state_after draw_game)) as Hrefused.
  { intros col. by apply drop_piece_finished. }
  split; [done|]. intros (col & pos & s' & Hok). by rewrite Hrefused in Hok.
Qed.

(** C8, amended.  In a game played from a fresh game, a successful drop
    that completes no line of four and brings [moves_made] to [ROWS * COLS]
    is the forty-second move; it leaves all forty-two cells filled, sets
    [game_over] and leaves [winner] at None (a draw).  Every later move is
    refused with [InvalidState]. *)
Theorem draw_on_last_cell (cols : list Z) (s s' : GameState) (col row : Z) :
  play cols new_game = Some s →
  drop_piece col s = (Ok (row, col), s') →
  ¬ four_in_line (board s') (current_player s) row col →
  moves_made s' = ROWS * COLS →
  length cols = 41%nat ∧
  count_discs (board s') = ROWS * COLS ∧
  game_over s' = true ∧
  winner s' = None ∧
  ∀ col', drop_piece col' s' = (Raise InvalidState, s').
Proof.
  intros Hplay Hdrop Hno Hfull.
  destruct (play_inv cols s Hplay) as (Hinv & Hmoves & _).
  destruct (drop_piece_step _ _ _ _ Hinv Hdrop)
    as (row' & _ & _ & _ & _ & _ & _ & _ & _ & Hm & Hinv').
  assert (game_over s' = true ∧ winner s' = None) as [Hover' Hwinner'].
  { destruct (drop_piece_ok_inv _ _ _ _ Hdrop)
      as (row'' & b' & won & [= <-] & Hover & Hcol & Hrow & Hpos & _ & _ & _).
    destruct (drop_piece_success col row s (game_inv_wf_state s Hinv)
                Hover Hcol Hrow Hpos)
      as (b'' & won' & _ & _ & _ & _ & _ & Hiff & Hdrop').
    rewrite Hdrop' in Hdrop. injection Hdrop as <-.
    destruct (conclude_fields won' (placed s row col b'')) as (Hb & _ & Hm').
    rewrite Hb in Hno. simpl in Hno.
    destruct won'; [by destruct Hno; apply Hiff|].
    rewrite Hm' in Hfull. unfold conclude.
    rewrite bool_decide_eq_true_2 by done. simpl.
    split; [done|]. destruct Hinv as (_ & _ & _ & _ & _ & Hw). by apply Hw. }
  split; [unfold ROWS, COLS in Hfull; lia|].
  split; [by destruct Hinv' as (_ & _ & _ & _ & <- & _)|].
  split; [done|]. split; [done|].
  intros col'. by apply drop_piece_finished.
Qed.

Lemma draw_on_last_cell_witness :
  length (take 41 draw_game) = 41%nat ∧
  count_discs (board (state_after draw_game)) = ROWS * COLS ∧
  game_over (state_after draw_game) = true ∧
  winner (state_after draw_game) = None ∧
  ∀ col', drop_piece col' (state_after draw_game)
          = (Raise InvalidState, state_after draw_game).
Proof.
  apply (draw_on_last_cell (take 41 draw_game)
           (state_after (take 41 draw_game)) (state_after draw_game) 5 0).
  - vm_compute. reflexivity.
  - vm_compute. reflexivity.
  - apply four_in_line_by_check.
    + split; [reflexivity|]. vm_compute. repeat constructor.
    + unfold ROWS. lia.
    + unfold COLS. lia.
    + reflexivity.
    + vm_compute. reflexivity.
  - reflexivity.
Defined.

(** C9.  Whatever the object holds, [reset] returns normally and leaves it
    the fresh game: an all-Empty grid, next free row [ROWS-1] for each of
    the columns [0 .. COLS-1], Player1 to move, no move made, game not over,
    no winner.  Calling it again gives the same state. *)
Theorem reset_fresh (s : GameState) :
  reset s = (Ok (), new_game) ∧
  reset (reset s).2 = reset s ∧
  board new_game = replicate 6 (replicate 7 EMPTY) ∧
  (∀ r c, 0 ≤ r < ROWS → 0 ≤ c < COLS → cell (board new_game) r c = Some EMPTY) ∧
  (∀ c, _next_row new_game !! c = if decide (0 ≤ c < COLS) then Some (ROWS - 1) else None) ∧
  current_player new_game = PLAYER1 ∧
  moves_made new_game = 0 ∧
  game_over new_game = false ∧
  winner new_game = None.
Proof.
  split; [done|]. split; [done|]. split; [done|]. split; [|split; [|done]].
  - intros r c Hr Hc.
    destruct (wf_board_cell _ r c np_zeros_wf Hr Hc) as [v Hv].
    simpl. rewrite Hv. f_equal. by apply np_zeros_cell in Hv.
  - intros c. case_decide as Hc; [by apply dict_of_range_lookup|].
    simpl. unfold dict_of_range. apply not_elem_of_list_to_map_1.
    rewrite <- list_fmap_compose. intros Hin.
    apply list_elem_of_fmap in Hin as (n & -> & Hn).
    apply elem_of_seq in Hn. simpl in *. unfold COLS in *. lia.
Qed.

(** C10.  In every state reached from a fresh game: each cell of the grid
    holds Empty (0), Player1 (1) or Player2 (2); whatever a call of
    [drop_piece] answers, a cell that was not Empty keeps its value; a
    successful call writes the mover's value, 1 or 2, into a cell that was
    Empty and into no other; [reset] makes every cell Empty. *)
Theorem cells_written_once (s : GameState) :
  reachable s →
  (EMPTY = 0 ∧ PLAYER1 = 1 ∧ PLAYER2 = 2) ∧
  (∀ r c, 0 ≤ r < ROWS → 0 ≤ c < COLS →
      ∃ v, cell (board s) r c = Some v ∧ (v = EMPTY ∨ v = PLAYER1 ∨ v = PLAYER2)) ∧
  (∀ col out s', drop_piece col s = (out, s') →
      (∀ r c v, cell (board s) r c = Some v → v ≠ EMPTY →
                cell (board s') r c = Some v) ∧
      (∀ row col', out = Ok (row, col') →
         cell (board s) row col' = Some EMPTY ∧
         cell (board s') row col' = Some (current_player s) ∧
         is_player (current_player s) ∧
         ∀ r c, (r, c) ≠ (row, col') → cell (board s') r c = cell (board s) r c)) ∧
  (∀ r c, 0 ≤ r < ROWS → 0 ≤ c < COLS →
      cell (board (reset s).2) r c = Some EMPTY).
Proof.
  intros Hreach. pose proof (reachable_inv s Hreach) as Hinv.
  split; [done|]. split; [|split].
  - intros r c Hr Hc. destruct Hinv as (Hwf & _ & _ & Hcells & _).
    destruct (wf_board_cell _ r c Hwf Hr Hc) as [v Hv].
    exists v. split; [done|]. apply (Hcells r c v Hv).
  - intros col out s' Hdrop.
    destruct (drop_piece_wf_cases col s (game_inv_wf_state s Hinv))
      as [(e & He & _)|(row & s'' & Hok)].
    { rewrite He in Hdrop. injection Hdrop as <- <-. split; [done|]. done. }
    rewrite Hok in Hdrop. injection Hdrop as <- <-.
    destruct (drop_piece_step _ _ _ _ Hinv Hok)
      as (row' & [= <-] & _ & _ & _ & Hempty & Hnew & Hold & _ & _ & _).
    split.
    + intros r c v Hv Hne. rewrite Hold; [done|].
      intros [= -> ->]. congruence.
    + intros row' col' [= <- <-]. split; [done|]. split; [done|].
      split; [|done]. by destruct Hinv as (_ & _ & Hp & _).
  - intros r c Hr Hc.
    destruct (wf_board_cell _ r c np_zeros_wf Hr Hc) as [v Hv].
    simpl. rewrite Hv. f_equal. by apply np_zeros_cell in Hv.
Qed.

Lemma cells_written_once_witness :
  (EMPTY = 0 ∧ PLAYER1 = 1 ∧ PLAYER2 = 2) ∧
  (∀ r c, 0 ≤ r < ROWS → 0 ≤ c < COLS →
      ∃ v, cell (board (state_after [3; 3])) r c = Some v ∧
           (v = EMPTY ∨ v = PLAYER1 ∨ v = PLAYER2)) ∧
  (∀ col out s', drop_piece col (state_after [3; 3]) = (out, s') →
      (∀ r c v, cell (board (state_after [3; 3])) r c = Some v → v ≠ EMPTY →
                cell (board s') r c = Some v) ∧
      (∀ row col', out = Ok (row, col') →
         cell (board (state_after [3; 3])) row col' = Some EMPTY ∧
         cell (board s') row col' = Some (current_player (state_after [3; 3])) ∧
         is_player (current_player (state_after [3; 3])) ∧
         ∀ r c, (r, c) ≠ (row, col') →
                cell (board s') r c = cell (board (state_after [3; 3])) r c)) ∧
  (∀ r c, 0 ≤ r < ROWS → 0 ≤ c < COLS →
      cell (board (reset (state_after [3; 3])).2) r c = Some EMPTY).
Proof.
  apply (cells_written_once (state_after [3; 3])).
  exists [3; 3]. vm_compute. reflexivity.
Defined.

(** ** Further properties of the engine *)

(** Induction over the games that lead to a state. *)
Lemma reachable_induction (P : GameState → Prop) :
  P new_game →
  (∀ s s' col pos, reachable s → P s → drop_piece col s = (Ok pos, s') → P s') →
  ∀ s, reachable s → P s.
Proof.
  intros Hnew Hstep s [cols Hplay]. revert s Hplay.
  induction cols as [|col cols IH] using rev_ind; intros s.
  { by intros [= <-]. }
  rewrite play_snoc. destruct (play cols new_game) as [s1|] eqn:Hs1; [|done].
  simpl. unfold then_drop.
  destruct (drop_piece col s1) as [[pos| |] s2] eqn:Hdrop; [|done..].
  intros [= <-]. apply (Hstep s1 s2 col pos); [by exists cols|by apply IH|done].
Qed.

(** Everything known about a move that was accepted in a game. *)
Lemma drop_piece_step_full (col : Z) (s s' : GameState) (pos : Z * Z) :
  game_inv s → drop_piece col s = (Ok pos, s') →
  ∃ row b' won,
    pos = (row, col) ∧ game_over s = false ∧ winner s = None ∧
    0 ≤ col < COLS ∧ 0 ≤ row < ROWS ∧
    _next_row s !! col = Some row ∧
    wf_board b' ∧
    cell (board s) row col = Some EMPTY ∧
    cell b' row col = Some (current_player s) ∧
    (∀ r c, (r, c) ≠ (row, col) → cell b' r c = cell (board s) r c) ∧
    (won = true ↔ four_in_line b' (current_player s) row col) ∧
    s' = conclude won (placed s row col b').
Proof.
  intros Hinv Hdrop.
  destruct (drop_piece_ok_inv _ _ _ _ Hdrop)
    as (row & b' & won & -> & Hover & Hcol & Hrow & Hpos & _ & _ & _).
  destruct (drop_piece_success col row s (game_inv_wf_state s Hinv)
              Hover Hcol Hrow Hpos)
    as (b'' & won' & _ & Hwf' & Hnew & Hold & _ & Hiff & Hdrop').
  rewrite Hdrop' in Hdrop. injection Hdrop as <-.
  destruct Hinv as (_ & Hg & _ & _ & _ & Hw).
  destruct (Hg col Hcol) as (nr & Hnr & Hrange & Hcolumn).
  assert (nr = row) as -> by congruence.
  exists row, b'', won'. do 2 (split; [done|]). split; [by apply Hw|].
  split; [done|]. split; [lia|]. split; [done|]. split; [done|].
  split; [apply Hcolumn; lia|]. done.
Qed.

Lemma wf_board_size (b : ndarray) :
  wf_board b → length (concat b) = Z.to_nat (ROWS * COLS).
Proof.
  intros [Hlen Hall].
  do 7 (destruct b as [|? b]; try done).
  repeat (apply Forall_cons in Hall as [? Hall]).
  simpl. rewrite !length_app. simpl in *. unfold COLS in *. lia.
Qed.

Lemma count_discs_bound (b : ndarray) :
  wf_board b → 0 ≤ count_discs b ≤ ROWS * COLS.
Proof.
  intros Hwf. unfold count_discs.
  pose proof (length_filter (λ v, v ≠ EMPTY) (concat b)) as Hle.
  rewrite (wf_board_size b Hwf) in Hle. unfold ROWS, COLS in *. lia.
Qed.

(** Whose turn it is, and when the game is over. *)
Lemma turn_inv (s : GameState) :
  reachable s →
  (game_over s = false →
     current_player s = to_move (moves_made s) ∧ moves_made s < ROWS * COLS) ∧
  (game_over s = true →
     current_player s = to_move (moves_made s - 1) ∧
     (winner s = Some (current_player s) ∨
      winner s = None ∧ moves_made s = ROWS * COLS)).
Proof.
  intros Hreach. induction Hreach as [|s s' col pos Hreach IH Hdrop]
    using reachable_induction; [done|].
  pose proof (reachable_inv s Hreach) as Hinv.
  assert (reachable s') as Hreach'.
  { destruct (reachable_closed s col Hreach) as [Hr _]. by rewrite Hdrop in Hr. }
  pose proof (reachable_inv s' Hreach') as (Hwf' & _ & _ & _ & Hcount' & _).
  pose proof (count_discs_bound _ Hwf') as Hbound. rewrite <- Hcount' in Hbound.
  destruct (drop_piece_step_full _ _ _ _ Hinv Hdrop)
    as (row & b' & won & -> & Hover & Hwin & _ & _ & _ & _ & _ & _ & _ & _ & ->).
  destruct (proj1 IH Hover) as [Hturn Hlt].
  revert Hbound. unfold conclude. destruct won; simpl.
  - intros _. split; [done|]. intros _.
    split; [rewrite Hturn; f_equal; lia|by left].
  - case_bool_decide as Hfull; simpl.
    + intros _. split; [done|]. intros _.
      split; [rewrite Hturn; f_equal; lia|by right].
    + intros Hbound. split; [|congruence]. intros _. split; [|lia].
      rewrite Hturn. unfold to_move.
      replace (moves_made s + 1) with (Z.succ (moves_made s)) by lia.
      rewrite Z.even_succ, <- Z.negb_even.
      by destruct (Z.even (moves_made s)).
Qed.

(** ** Lines of four anywhere on the grid *)

Section Lines.
Variable b : ndarray.
Variable p : Z.

(** Seen from a cell [k] steps further along the axis, the run ahead is [k]
    shorter and the run behind [k] longer. *)
Lemma run_length_shift (r c dr dc nf nb k : Z) :
  on_grid_is b p r c →
  run_length b p r c dr dc nf →
  run_length b p r c (- dr) (- dc) nb →
  1 ≤ k ≤ nf →
  run_length b p (r + k * dr) (c + k * dc) dr dc (nf - k) ∧
  run_length b p (r + k * dr) (c + k * dc) (- dr) (- dc) (nb + k).
Proof.
  intros Hhere (Hf0 & Hf & Hfstop) (Hb0 & Hb & Hbstop) Hk. split.
  - split; [lia|]. split.
    + intros j Hj.
      replace (r + k * dr + j * dr) with (r + (k + j) * dr) by lia.
      replace (c + k * dc + j * dc) with (c + (k + j) * dc) by lia.
      apply Hf. lia.
    + replace (r + k * dr + (nf - k + 1) * dr) with (r + (nf + 1) * dr) by lia.
      by replace (c + k * dc + (nf - k + 1) * dc) with (c + (nf + 1) * dc) by lia.
  - split; [lia|]. split.
    + intros j Hj. destruct (Z.lt_trichotomy j k) as [Hlt|[->|Hgt]].
      * replace (r + k * dr + j * - dr) with (r + (k - j) * dr) by lia.
        replace (c + k * dc + j * - dc) with (c + (k - j) * dc) by lia.
        apply Hf. lia.
      * replace (r + k * dr + k * - dr) with r by lia.
        by replace (c + k * dc + k * - dc) with c by lia.
      * replace (r + k * dr + j * - dr) with (r + (j - k) * - dr) by lia.
        replace (c + k * dc + j * - dc) with (c + (j - k) * - dc) by lia.
        apply Hb. lia.
    + replace (r + k * dr + (nb + k + 1) * - dr) with (r + (nb + 1) * - dr) by lia.
      by replace (c + k * dc + (nb + k + 1) * - dc) with (c + (nb + 1) * - dc) by lia.
Qed.

(** A line of four through a cell is a line of four through each of its
    cells. *)
Lemma four_in_line_along (r c dr dc nf nb k : Z) :
  (dr, dc) ∈ directions →
  on_grid_is b p r c →
  run_length b p r c dr dc nf →
  run_length b p r c (- dr) (- dc) nb →
  CONNECT ≤ 1 + nf + nb →
  - nb ≤ k ≤ nf →
  four_in_line b p (r + k * dr) (c + k * dc).
Proof.
  intros Hd Hhere Hf Hb Ht Hk. exists (dr, dc). simpl.
  destruct (Z.lt_trichotomy k 0) as [Hneg|[->|Hpos]].
  - destruct (run_length_shift r c (- dr) (- dc) nb nf (- k) Hhere Hb) as [Hb' Hf'].
    { by rewrite !Z.opp_involutive. }
    { lia. }
    rewrite !Z.opp_involutive in Hf'.
    replace (r + - k * - dr) with (r + k * dr) in * by lia.
    replace (c + - k * - dc) with (c + k * dc) in * by lia.
    exists (1 + (nf + - k) + (nb - - k)). split; [done|]. split; [|lia].
    by eexists _, _.
  - replace (r + 0 * dr) with r by lia. replace (c + 0 * dc) with c by lia.
    exists (1 + nf + nb). split; [done|]. split; [|done]. by exists nf, nb.
  - destruct (run_length_shift r c dr dc nf nb k Hhere Hf Hb) as [Hf' Hb']; [lia|].
    exists (1 + (nf - k) + (nb + k)). split; [done|]. split; [|lia].
    by eexists _, _.
Qed.
End Lines.

(** A disc dropped into an Empty cell creates no line of four that does not
    run through it: a line on the new grid either passes through the new
    disc, and is of its colour, or was there before. *)
Lemma line_after_drop (b b' : ndarray) (row col m r c p : Z) :
  cell b row col = Some EMPTY →
  cell b' row col = Some m →
  (∀ r c, (r, c) ≠ (row, col) → cell b' r c = cell b r c) →
  p ≠ EMPTY → 0 ≤ r < ROWS → 0 ≤ c < COLS →
  cell b' r c = Some p →
  four_in_line b' p r c →
  (p = m ∧ four_in_line b' m row col) ∨
  ((r, c) ≠ (row, col) ∧ cell b r c = Some p ∧ four_in_line b p r c).
Proof.
  intros Hempty Hnew Hold Hp Hr Hc Hcell ([dr dc] & t & Hd & (nf & nb & Hf & Hb & ->) & Ht).
  simpl in Hf, Hb.
  assert (on_grid_is b' p r c) as Hhere by done.
  assert (∀ k, - nb ≤ k ≤ nf → on_grid_is b' p (r + k * dr) (c + k * dc)) as Hline.
  { intros k Hk. destruct (Z.lt_trichotomy k 0) as [Hneg|[->|Hpos]].
    - replace (r + k * dr) with (r + - k * - dr) by lia.
      replace (c + k * dc) with (c + - k * - dc) by lia.
      apply Hb. lia.
    - replace (r + 0 * dr) with r by lia. by replace (c + 0 * dc) with c by lia.
    - apply Hf. lia. }
  destruct (decide (Exists (λ k, (r + k * dr, c + k * dc) = (row, col))
                           (seqZ (- nb) (nb + nf + 1)))) as [Hon|Hoff].
  - left. apply Exists_exists in Hon as (k & Hk & Heq).
    apply elem_of_seqZ in Hk. injection Heq as Hrow Hcol.
    assert (p = m) as ->.
    { destruct (Hline k) as (_ & _ & Hv); [lia|]. rewrite Hrow, Hcol in Hv. congruence. }
    split; [done|]. rewrite <- Hrow, <- Hcol.
    apply (four_in_line_along b' m r c dr dc nf nb k); try done. lia.
  - right.
    assert (∀ k, - nb ≤ k ≤ nf → (r + k * dr, c + k * dc) ≠ (row, col)) as Hfar.
    { intros k Hk Heq. apply Hoff, Exists_exists. exists k.
      split; [apply elem_of_seqZ; lia|done]. }
    assert (∀ x y, on_grid_is b p x y → on_grid_is b' p x y) as Hup.
    { intros x y (Hx & Hy & Hv). split; [done|]. split; [done|].
      destruct (decide ((x, y) = (row, col))) as [[= -> ->]|Hne].
      - rewrite Hempty in Hv. congruence.
      - by rewrite Hold. }
    assert (∀ k, - nb ≤ k ≤ nf → on_grid_is b p (r + k * dr) (c + k * dc)) as Hline'.
    { intros k Hk. destruct (Hline k Hk) as (Hx & Hy & Hv).
      split; [done|]. split; [done|]. rewrite <- Hold; [done|]. by apply Hfar. }
    destruct (dr, dc) as [dr' dc'] eqn:Heqd. injection Heqd as <- <-.
    assert ((r, c) ≠ (row, col)) as Hne.
    { specialize (Hfar 0). replace (r + 0 * dr) with r in Hfar by lia.
      replace (c + 0 * dc) with c in Hfar by lia. apply Hfar.
      destruct Hf as [? _], Hb as [? _]. lia. }
    split; [done|]. split; [by rewrite <- Hold|].
    exists (dr, dc), (1 + nf + nb). split; [done|]. split; [|done].
    exists nf, nb. simpl. destruct Hf as (Hf0 & _ & Hfstop), Hb as (Hb0 & _ & Hbstop).
    split; [|split; [|done]].
    + split; [done|]. split; [|by intros H%Hup].
      intros k Hk. apply Hline'. lia.
    + split; [done|]. split; [|by intros H%Hup].
      intros k Hk.
      replace (r + k * - dr) with (r + - k * dr) by lia.
      replace (c + k * - dc) with (c + - k * dc) by lia.
      apply Hline'. lia.
Qed.

(** ** Cells and the flattened grid *)

Lemma filter_length_all {A} (P : A → Prop) `{!∀ x, Decision (P x)} (l : list A) :
  length (filter P l) = length l → Forall P l.
Proof.
  induction l as [|x l IH]; [done|]. rewrite filter_cons.
  pose proof (length_filter P l) as Hle.
  destruct (decide (P x)); simpl; intros Hlen; [|lia].
  constructor; [done|]. apply IH. lia.
Qed.

Lemma filter_all {A} (P : A → Prop) `{!∀ x, Decision (P x)} (l : list A) :
  Forall P l → filter P l = l.
Proof.
  induction 1 as [|x l Hx Hl IH]; [done|].
  rewrite filter_cons. destruct (decide (P x)); [by rewrite IH|done].
Qed.

Lemma cell_in_concat (b : ndarray) (r c v : Z) :
  cell b r c = Some v → v ∈ concat b.
Proof.
  unfold cell. case_bool_decide; [|done].
  destruct (b !! Z.to_nat r) as [line|] eqn:Hl; [|done]. simpl. intros Hv.
  apply list_elem_of_In, in_concat. exists line.
  split; apply list_elem_of_In; by eapply list_elem_of_lookup_2.
Qed.

Lemma concat_in_cell (b : ndarray) (v : Z) :
  wf_board b → v ∈ concat b →
  ∃ r c, 0 ≤ r < ROWS ∧ 0 ≤ c < COLS ∧ cell b r c = Some v.
Proof.
  intros Hwf Hv. apply list_elem_of_In, in_concat in Hv as (line & Hline & Hv).
  apply list_elem_of_In, list_elem_of_lookup in Hline as [i Hi].
  apply list_elem_of_In, list_elem_of_lookup in Hv as [j Hj].
  pose proof (lookup_lt_Some _ _ _ Hi) as Hilt.
  pose proof (lookup_lt_Some _ _ _ Hj) as Hjlt.
  rewrite (wf_board_line _ _ _ Hwf Hi) in Hjlt. destruct Hwf as [Hrows _].
  rewrite Hrows in Hilt.
  exists (Z.of_nat i), (Z.of_nat j). split; [lia|]. split; [lia|].
  unfold cell. rewrite bool_decide_eq_true_2 by lia.
  rewrite !Nat2Z.id, Hi. done.
Qed.

(** A grid with fewer than forty-two discs has an Empty cell. *)
Lemma empty_cell_exists (s : GameState) :
  game_inv s → moves_made s < ROWS * COLS →
  ∃ r c, 0 ≤ r < ROWS ∧ 0 ≤ c < COLS ∧ cell (board s) r c = Some EMPTY.
Proof.
  intros (Hwf & _ & _ & _ & Hcount & _) Hlt.
  destruct (decide (Forall (λ v, v ≠ EMPTY) (concat (board s)))) as [Hall|Hsome].
  - rewrite Hcount in Hlt. unfold count_discs in Hlt.
    rewrite (filter_all _ _ Hall) in Hlt.
    rewrite (wf_board_size _ Hwf) in Hlt. unfold ROWS, COLS in Hlt. lia.
  - apply not_Forall_Exists in Hsome; [|apply _].
    apply Exists_exists in Hsome as (v & Hv & Hempty). simpl in Hempty.
    assert (v = EMPTY) as -> by (by destruct (decide (v = EMPTY))).
    by apply concat_in_cell.
Qed.

(** A grid with forty-two discs has none. *)
Lemma full_board_cells (s : GameState) (r c : Z) :
  game_inv s → moves_made s = ROWS * COLS →
  cell (board s) r c ≠ Some EMPTY.
Proof.
  intros (Hwf & _ & _ & _ & Hcount & _) Hfull Hcell.
  apply cell_in_concat in Hcell.
  assert (Forall (λ v, v ≠ EMPTY) (concat (board s))) as Hall.
  { apply (filter_length_all (λ v, v ≠ EMPTY)). rewrite (wf_board_size _ Hwf).
    rewrite Hcount in Hfull. unfold count_discs in Hfull. lia. }
  rewrite Forall_forall in Hall. by apply (Hall EMPTY).
Qed.

(** ** Turn order, end of game and winner *)

(** X1.  In every state of a game the current player is fixed by the number
    of moves made: while the game is open, Player1 is to move after an even
    number of moves and Player2 after an odd number; once the game is over,
    the player who made the last move is still the current player. *)
Theorem turn_alternates (s : GameState) :
  reachable s →
  current_player s
  = to_move (if game_over s then moves_made s - 1 else moves_made s).
Proof.
  intros Hreach. destruct (turn_inv s Hreach) as [Hopen Hover].
  destruct (game_over s); [by apply Hover|by apply Hopen].
Qed.

Lemma turn_alternates_witness :
  current_player (state_after [3; 3; 4])
  = to_move (if game_over (state_after [3; 3; 4])
             then moves_made (state_after [3; 3; 4]) - 1
             else moves_made (state_after [3; 3; 4])).
Proof.
  apply (turn_alternates (state_after [3; 3; 4])).
  exists [3; 3; 4]. vm_compute. reflexivity.
Defined.

(** X2.  In every state of a game [moves_made] lies between 0 and
    [ROWS * COLS], and the game is over exactly when a winner is recorded
    or all forty-two moves have been made. *)
Theorem game_over_iff (s : GameState) :
  reachable s →
  0 ≤ moves_made s ≤ ROWS * COLS ∧
  (game_over s = true ↔ winner s ≠ None ∨ moves_made s = ROWS * COLS).
Proof.
  intros Hreach. destruct (turn_inv s Hreach) as [Hopen Hover].
  destruct (reachable_inv s Hreach) as (Hwf & _ & _ & _ & Hcount & Hw).
  split; [rewrite Hcount; by apply count_discs_bound|]. split.
  - intros Htrue. destruct (Hover Htrue) as [_ [Hwon|[_ Hfull]]].
    + left. by rewrite Hwon.
    + by right.
  - intros [Hwon|Hfull]; destruct (game_over s) eqn:Hg; try done.
    + by destruct Hwon; apply Hw.
    + destruct (Hopen eq_refl) as [_ Hlt]. lia.
Qed.

Lemma game_over_iff_witness :
  0 ≤ moves_made (state_after column0_game) ≤ ROWS * COLS ∧
  (game_over (state_after column0_game) = true
   ↔ winner (state_after column0_game) ≠ None
     ∨ moves_made (state_after column0_game) = ROWS * COLS).
Proof.
  apply (game_over_iff (state_after column0_game)).
  exists column0_game. vm_compute. reflexivity.
Defined.

(** The winning line, found at the move that set the winner. *)
Lemma winner_line_aux (s : GameState) (w : Z) :
  reachable s → winner s = Some w →
  ∃ r c, 0 ≤ r < ROWS ∧ 0 ≤ c < COLS ∧
         cell (board s) r c = Some w ∧ four_in_line (board s) w r c.
Proof.
  intros Hreach. induction Hreach as [|s s' col pos Hreach IH Hdrop]
    using reachable_induction; [done|].
  destruct (drop_piece_step_full _ _ _ _ (reachable_inv s Hreach) Hdrop)
    as (row & b' & won & -> & _ & Hnow & Hcol & Hrow & _ & _ & _ & Hnew & _ & Hiff & ->).
  destruct (conclude_fields won (placed s row col b')) as (-> & _ & _).
  unfold conclude. destruct won; simpl.
  - intros [= <-]. exists row, col. do 3 (split; [done|]). by apply Hiff.
  - case_bool_decide; simpl; congruence.
Qed.

(** A line anywhere on the grid was completed by a winning move. *)
Lemma line_winner_aux (s : GameState) (r c p : Z) :
  reachable s → 0 ≤ r < ROWS → 0 ≤ c < COLS → p ≠ EMPTY →
  cell (board s) r c = Some p → four_in_line (board s) p r c →
  winner s = Some p.
Proof.
  intros Hreach. revert r c p.
  induction Hreach as [|s s' col pos Hreach IH Hdrop]
    using reachable_induction; intros r c p Hr Hc Hp Hcell Hfour.
  { apply np_zeros_cell in Hcell. done. }
  destruct (drop_piece_step_full _ _ _ _ (reachable_inv s Hreach) Hdrop)
    as (row & b' & won & -> & _ & Hnow & _ & _ & _ & _ & Hempty & Hnew & Hold & Hiff & ->).
  destruct (conclude_fields won (placed s row col b')) as (Hb & _ & _).
  rewrite Hb in Hcell, Hfour. simpl in Hcell, Hfour.
  destruct (line_after_drop (board s) b' row col (current_player s) r c p
              Hempty Hnew Hold Hp Hr Hc Hcell Hfour)
    as [[-> Hlast]|(_ & Hcell' & Hfour')].
  - apply Hiff in Hlast as ->. done.
  - rewrite (IH r c p Hr Hc Hp Hcell' Hfour') in Hnow. done.
Qed.

(** X3.  A recorded winner is sound: in every state of a game with
    [winner = w], the game is over, [w] is the current player and is
    Player1 or Player2, and some cell of the grid holds a disc of [w] lying
    on a line of four or more of [w]'s discs. *)
Theorem winner_has_line (s : GameState) (w : Z) :
  reachable s → winner s = Some w →
  game_over s = true ∧ w = current_player s ∧ is_player w ∧
  ∃ r c, 0 ≤ r < ROWS ∧ 0 ≤ c < COLS ∧
         cell (board s) r c = Some w ∧ four_in_line (board s) w r c.
Proof.
  intros Hreach Hw.
  destruct (reachable_inv s Hreach) as (_ & _ & Hp & _ & _ & Hnone).
  assert (game_over s = true) as Hover.
  { destruct (game_over s); [done|]. rewrite Hnone in Hw; done. }
  destruct (turn_inv s Hreach) as [_ Hlast].
  destruct (Hlast Hover) as [_ [Hwon|[Hdraw _]]]; [|congruence].
  assert (w = current_player s) as Heq by congruence.
  split; [done|]. split; [done|]. split; [by rewrite Heq|].
  by apply winner_line_aux.
Qed.

Lemma winner_has_line_witness :
  game_over (state_after column0_game) = true ∧
  1 = current_player (state_after column0_game) ∧ is_player 1 ∧
  ∃ r c, 0 ≤ r < ROWS ∧ 0 ≤ c < COLS ∧
         cell (board (state_after column0_game)) r c = Some 1 ∧
         four_in_line (board (state_after column0_game)) 1 r c.
Proof.
  apply (winner_has_line (state_after column0_game) 1).
  - exists column0_game. vm_compute. reflexivity.
  - reflexivity.
Defined.

(** X4.  Checking the last disc only misses nothing: in every state of a
    game, a disc anywhere on the grid that lies on a line of four or more
    of its own colour belongs to the recorded winner.  So while [winner] is
    None (game open, or drawn) the grid holds no such line, and the loser
    never has one. *)
Theorem line_belongs_to_winner (s : GameState) :
  reachable s →
  (∀ r c p, 0 ≤ r < ROWS → 0 ≤ c < COLS → p ≠ EMPTY →
            cell (board s) r c = Some p → four_in_line (board s) p r c →
            winner s = Some p) ∧
  (winner s = None → no_line (board s)).
Proof.
  intros Hreach. split.
  - intros r c p. by apply line_winner_aux.
  - intros Hnone r c p Hr Hc Hp Hcell Hfour.
    rewrite (line_winner_aux s r c p Hreach Hr Hc Hp Hcell Hfour) in Hnone. done.
Qed.

Lemma line_belongs_to_winner_witness :
  cell (board (state_after column0_game)) 5 0 = Some 1 ∧
  winner (state_after column0_game) = Some 1.
Proof.
  split; [reflexivity|].
  assert (reachable (state_after column0_game)) as Hreach.
  { exists column0_game. vm_compute. reflexivity. }
  apply (proj1 (line_belongs_to_winner (state_after column0_game) Hreach) 5 0 1).
  - unfold ROWS. lia.
  - unfold COLS. lia.
  - done.
  - reflexivity.
  - apply four_in_line_by_check.
    + split; [reflexivity|]. vm_compute. repeat constructor.
    + unfold ROWS. lia.
    + unfold COLS. lia.
    + reflexivity.
    + vm_compute. reflexivity.
Defined.

(** X5.  In every state of a game [is_draw] returns True exactly when all
    forty-two moves have been made and no disc of the grid lies on a line
    of four of its colour; the grid then has no Empty cell.  The call
    leaves the object as it is. *)
Theorem is_draw_iff_full_without_line (s : GameState) :
  reachable s →
  (is_draw s).2 = s ∧
  ((is_draw s).1 = Ok true
   ↔ moves_made s = ROWS * COLS ∧ no_line (board s)) ∧
  ((is_draw s).1 = Ok true → ∀ r c, cell (board s) r c ≠ Some EMPTY).
Proof.
  intros Hreach. split; [done|].
  pose proof (reachable_inv s Hreach) as Hinv.
  destruct (turn_inv s Hreach) as [Hopen Hover].
  assert ((is_draw s).1 = Ok true ↔ game_over s = true ∧ winner s = None) as Hdraw.
  { unfold is_draw, mbind, M_bind, gets, mret, M_ret. simpl.
    destruct (game_over s), (winner s); simpl; split; try done; by intros []. }
  assert ((is_draw s).1 = Ok true → moves_made s = ROWS * COLS) as Hfull.
  { intros [Hg Hw]%Hdraw. destruct (Hover Hg) as [_ [Hwon|[_ ?]]]; [congruence|done]. }
  split; [split|].
  - intros Hd. split; [by apply Hfull|].
    apply Hdraw in Hd as [_ Hw]. intros r c p Hr Hc Hp Hcell Hfour.
    rewrite (line_winner_aux s r c p Hreach Hr Hc Hp Hcell Hfour) in Hw. done.
  - intros [Hmoves Hno]. apply Hdraw. split.
    + destruct (game_over s) eqn:Hg; [done|]. destruct (Hopen eq_refl). lia.
    + destruct (winner s) as [w|] eqn:Hw; [|done].
      destruct (winner_line_aux s w Hreach Hw) as (r & c & Hr & Hc & Hcell & Hfour).
      destruct (Hno r c w Hr Hc); try done.
      destruct Hinv as (_ & _ & _ & Hcells & _).
      destruct (Hcells r c w Hcell) as [->|Hpl]; [|by apply is_player_not_empty].
      exfalso. apply (full_board_cells s r c); [|done..]. by apply reachable_inv.
  - intros Hd r c. apply full_board_cells; [done|by apply Hfull].
Qed.

Lemma is_draw_iff_full_without_line_witness :
  (is_draw (state_after draw_game)).1 = Ok true ∧
  moves_made (state_after draw_game) = ROWS * COLS ∧
  no_line (board (state_after draw_game)).
Proof.
  split; [reflexivity|].
  assert (reachable (state_after draw_game)) as Hreach.
  { exists draw_game. vm_compute. reflexivity. }
  apply (proj1 (proj1 (proj2 (is_draw_iff_full_without_line
                                (state_after draw_game) Hreach)))).
  reflexivity.
Defined.

(** ** Legal moves *)

(** X6.  While a game is open, [drop_piece col] is accepted exactly when
    [col] is a column of the grid whose top cell (row 0) is Empty. *)
Theorem playable_iff_top_empty (s : GameState) (col : Z) :
  reachable s → game_over s = false →
  ((∃ pos s', drop_piece col s = (Ok pos, s'))
   ↔ 0 ≤ col < COLS ∧ cell (board s) 0 col = Some EMPTY).
Proof.
  intros Hreach Hover. pose proof (reachable_inv s Hreach) as Hinv.
  pose proof Hinv as (_ & Hg & _). split.
  - intros (pos & s' & Hdrop).
    destruct (drop_piece_step _ _ _ _ Hinv Hdrop)
      as (row & _ & Hcol & Hrow & Hnext & _).
    split; [done|]. destruct (Hg col Hcol) as (nr & Hnr & _ & Hcolumn).
    assert (nr = row) as -> by congruence.
    apply Hcolumn; unfold ROWS in *; lia.
  - intros [Hcol Htop]. destruct (Hg col Hcol) as (nr & Hnr & _ & Hcolumn).
    assert (0 ≤ nr) as Hpos by (apply Hcolumn; [unfold ROWS; lia|done]).
    destruct (drop_piece_success col nr s (game_inv_wf_state s Hinv)
                Hover Hcol Hnr Hpos) as (b' & won & _ & _ & _ & _ & _ & _ & Hdrop).
    by eexists _, _.
Qed.

Lemma playable_iff_top_empty_witness :
  (∃ pos s', drop_piece 0 (state_after [0; 0; 0; 0; 0; 0]) = (Ok pos, s'))
  ↔ 0 ≤ 0 < COLS ∧ cell (board (state_after [0; 0; 0; 0; 0; 0])) 0 0 = Some EMPTY.
Proof.
  apply (playable_iff_top_empty (state_after [0; 0; 0; 0; 0; 0]) 0).
  - exists [0; 0; 0; 0; 0; 0]. vm_compute. reflexivity.
  - reflexivity.
Defined.

(** X7.  An open game is never stuck: while [game_over] is false some
    column accepts a disc. *)
Theorem open_game_has_move (s : GameState) :
  reachable s → game_over s = false →
  ∃ col row s', 0 ≤ col < COLS ∧ drop_piece col s = (Ok (row, col), s').
Proof.
  intros Hreach Hover. pose proof (reachable_inv s Hreach) as Hinv.
  destruct (turn_inv s Hreach) as [Hopen _]. destruct (Hopen Hover) as [_ Hlt].
  destruct (empty_cell_exists s Hinv Hlt) as (r & c & Hr & Hc & Hcell).
  pose proof Hinv as (_ & Hg & _).
  destruct (Hg c Hc) as (nr & Hnr & _ & Hcolumn).
  assert (0 ≤ nr) as Hpos by (apply Hcolumn in Hcell; lia).
  destruct (drop_piece_success c nr s (game_inv_wf_state s Hinv)
              Hover Hc Hnr Hpos) as (b' & won & _ & _ & _ & _ & _ & _ & Hdrop).
  by eexists c, nr, _.
Qed.

Lemma open_game_has_move_witness :
  ∃ col row s', 0 ≤ col < COLS ∧
    drop_piece col (state_after (take 41 draw_game)) = (Ok (row, col), s').
Proof.
  apply (open_game_has_move (state_after (take 41 draw_game))).
  - exists (take 41 draw_game). vm_compute. reflexivity.
  - reflexivity.
Defined.

(** X8.  A game of accepted moves has at most forty-two of them, at most
    [ROWS] in any one column, and [moves_made] is their number; a game of
    forty-two moves is over. *)
Theorem game_length (cols : list Z) (s : GameState) :
  play cols new_game = Some s →
  moves_made s = Z.of_nat (length cols) ∧
  (length cols ≤ 42)%nat ∧
  (∀ c, 0 ≤ c < COLS → drops_into c cols ≤ ROWS) ∧
  (length cols = 42%nat → game_over s = true).
Proof.
  intros Hplay. destruct (play_inv cols s Hplay) as (Hinv & Hmoves & Hnext).
  assert (reachable s) as Hreach by (by exists cols).
  destruct (turn_inv s Hreach) as [Hopen _].
  pose proof Hinv as (Hwf & Hg & _ & _ & Hcount & _).
  pose proof (count_discs_bound _ Hwf) as Hbound. rewrite <- Hcount in Hbound.
  unfold ROWS, COLS in Hbound.
  split; [done|]. split; [lia|]. split.
  - intros c Hc. destruct (Hg c Hc) as (nr & Hnr & Hrange & _).
    rewrite Hnext in Hnr by done. injection Hnr as Hnr. lia.
  - intros Hlen. destruct (game_over s); [done|].
    destruct (Hopen eq_refl) as [_ Hlt]. unfold ROWS, COLS in Hlt. lia.
Qed.

Lemma game_length_witness :
  moves_made (state_after draw_game) = Z.of_nat (length draw_game) ∧
  (length draw_game ≤ 42)%nat ∧
  (∀ c, 0 ≤ c < COLS → drops_into c draw_game ≤ ROWS) ∧
  (length draw_game = 42%nat → game_over (state_after draw_game) = true).
Proof.
  apply (game_length draw_game (state_after draw_game)).
  vm_compute. reflexivity.
Defined.

(** X9.  The disc lands on the lowest Empty cell of the column played: in
    every state of a game, when [drop_piece col] returns [(row, col')],
    [col'] is [col], the cells of the column from the top down to [row]
    were Empty and the cells below [row] were not. *)
Theorem drop_lands_on_lowest_empty (s s' : GameState) (col row col' : Z) :
  reachable s →
  drop_piece col s = (Ok (row, col'), s') →
  col' = col ∧ 0 ≤ row < ROWS ∧
  (∀ r, 0 ≤ r ≤ row → cell (board s) r col = Some EMPTY) ∧
  (∀ r, row < r < ROWS → cell (board s) r col ≠ Some EMPTY).
Proof.
  intros Hreach Hdrop. pose proof (reachable_inv s Hreach) as Hinv.
  destruct (drop_piece_step _ _ _ _ Hinv Hdrop)
    as (row' & [= <- <-] & Hcol & Hrow & Hnext & _).
  destruct Hinv as (_ & Hg & _).
  destruct (Hg col' Hcol) as (nr & Hnr & _ & Hcolumn).
  assert (nr = row) as -> by congruence.
  split; [done|]. split; [done|]. split.
  - intros r Hr. apply Hcolumn; lia.
  - intros r Hr Hcell. apply Hcolumn in Hcell; lia.
Qed.

Lemma drop_lands_on_lowest_empty_witness :
  3 = 3 ∧ 0 ≤ 3 < ROWS ∧
  (∀ r, 0 ≤ r ≤ 3 → cell (board (state_after [3; 3])) r 3 = Some EMPTY) ∧
  (∀ r, 3 < r < ROWS → cell (board (state_after [3; 3])) r 3 ≠ Some EMPTY).
Proof.
  apply (drop_lands_on_lowest_empty (state_after [3; 3]) (state_after [3; 3; 3]) 3 3 3).
  - exists [3; 3]. vm_compute. reflexivity.
  - vm_compute. reflexivity.
Defined.

(** X10.  Who can win when: in every state of a game with a recorded
    winner [w], [w] is the player who made the last move; Player1 wins
    only on an odd-numbered move and Player2 only on an even-numbered
    one. *)
Theorem winner_parity (s : GameState) (w : Z) :
  reachable s → winner s = Some w →
  w = to_move (moves_made s - 1) ∧
  (w = PLAYER1 ↔ Z.odd (moves_made s) = true) ∧
  (w = PLAYER2 ↔ Z.even (moves_made s) = true).
Proof.
  intros Hreach Hw.
  destruct (reachable_inv s Hreach) as (_ & _ & _ & _ & _ & Hnone).
  assert (game_over s = true) as Hover.
  { destruct (game_over s); [done|]. rewrite Hnone in Hw; done. }
  destruct (turn_inv s Hreach) as [_ Hlast].
  destruct (Hlast Hover) as [Hturn [Hwon|[Hdraw _]]]; [|congruence].
  assert (w = to_move (moves_made s - 1)) as -> by congruence.
  split; [done|]. unfold to_move.
  replace (moves_made s - 1) with (Z.pred (moves_made s)) by lia.
  rewrite Z.even_pred, <- Z.negb_even.
  destruct (Z.even (moves_made s)); simpl; split; split; done.
Qed.

Lemma winner_parity_witness :
  1 = to_move (moves_made (state_after column0_game) - 1) ∧
  (1 = PLAYER1 ↔ Z.odd (moves_made (state_after column0_game)) = true) ∧
  (1 = PLAYER2 ↔ Z.even (moves_made (state_after column0_game)) = true).
Proof.
  apply (winner_parity (state_after column0_game) 1).
  - exists column0_game. vm_compute. reflexivity.
  - reflexivity.
Defined.

(** ** Indexing the engine *)

(** X11.  Reading back a move: after a drop accepted on a state of the data
    model and answered [(row, col)], [engine[row, col]] returns the player
    who moved, and reading leaves the object unchanged. *)
Theorem getitem_after_drop (s s' : GameState) (col row col' : Z) :
  wf_state s →
  drop_piece col s = (Ok (row, col'), s') →
  __getitem__ (row, col') s' = (Ok (current_player s), s').
Proof.
  intros Hwf Hdrop.
  destruct (drop_piece_ok_inv _ _ _ _ Hdrop)
    as (row' & b' & won & [= <- <-] & Hover & Hcol & Hrow & Hpos & _ & _ & _).
  destruct (drop_piece_success col' row s Hwf Hover Hcol Hrow Hpos)
    as (b'' & won' & _ & Hwf' & Hnew & _ & _ & _ & Hdrop').
  rewrite Hdrop' in Hdrop. injection Hdrop as <-.
  destruct (conclude_fields won' (placed s row col' b'')) as (Hb & _ & _).
  unfold __getitem__, mbind, M_bind, gets, lift. rewrite Hb. simpl.
  destruct Hwf as [_ Hnext]. destruct (Hnext col' Hcol) as (nr & Hnr & Hrange).
  assert (nr = row) as -> by congruence.
  destruct (np_getitem_cell b'' row col' Hwf') as (v & Hv & ->); [lia|done|].
  congruence.
Qed.

Lemma getitem_after_drop_witness :
  __getitem__ (5, 3) (drop_piece 3 new_game).2
  = (Ok (current_player new_game), (drop_piece 3 new_game).2).
Proof.
  apply (getitem_after_drop new_game (drop_piece 3 new_game).2 3 5 3).
  - exact (game_inv_wf_state new_game new_game_inv).
  - vm_compute. reflexivity.
Defined.



(** ** The counting helper on its own *)

(** X13.  On a grid of the right shape the count along an axis does not
    depend on the sense in which the axis is given:
    [_count_consecutive] answers the same for [(dr, dc)] and for
    [(-dr, -dc)]. *)
Theorem count_consecutive_symmetric (b : ndarray) (row col dr dc piece : Z) :
  wf_board b → (dr, dc) ≠ (0, 0) →
  _count_consecutive b row col dr dc piece
  = _count_consecutive b row col (- dr) (- dc) piece.
Proof.
  intros Hwf Hd.
  assert ((- dr, - dc) ≠ (0, 0)) as Hd'.
  { intros [= H1 H2]. apply Hd. f_equal; lia. }
  destruct (count_consecutive_line b piece Hwf row col dr dc Hd) as (t & Ht & ->).
  destruct (count_consecutive_line b piece Hwf row col (- dr) (- dc) Hd')
    as (t' & (nf & nb & Hf & Hb & ->) & ->).
  rewrite !Z.opp_involutive in Hb. f_equal.
  apply (line_length_unique b piece row col dr dc); [done|].
  exists nb, nf. split; [done|]. split; [done|]. lia.
Qed.

Lemma count_consecutive_symmetric_witness :
  _count_consecutive (board (state_after column0_game)) 3 0 1 0 1
  = _count_consecutive (board (state_after column0_game)) 3 0 (- 1) (- 0) 1.
Proof.
  apply (count_consecutive_symmetric (board (state_after column0_game)) 3 0 1 0 1).
  - split; [reflexivity|]. vm_compute. repeat constructor.
  - done.
Defined.

(** X14.  On a grid of the right shape, for a cell of the grid and any
    direction other than (0, 0), [_count_consecutive] returns a count of at
    least 1 (the cell itself is counted without being looked at) and at
    most the number of rows when the direction changes the row, of columns
    when it does not. *)
Theorem count_consecutive_bounds (b : ndarray) (row col dr dc piece : Z) :
  wf_board b → 0 ≤ row < ROWS → 0 ≤ col < COLS → (dr, dc) ≠ (0, 0) →
  ∃ n, _count_consecutive b row col dr dc piece = Ok n ∧
       1 ≤ n ≤ (if decide (dr = 0) then COLS else ROWS).
Proof.
  intros Hwf Hr Hc Hd.
  destruct (count_consecutive_line b piece Hwf row col dr dc Hd)
    as (t & (nf & nb & (Hf0 & Hf & _) & (Hb0 & Hb & _) & ->) & ->).
  exists (1 + nf + nb). split; [done|].
  assert (0 ≤ row + nf * dr < ROWS ∧ 0 ≤ col + nf * dc < COLS) as [Hfr Hfc].
  { destruct (decide (nf = 0)) as [->|Hnf]; [lia|].
    destruct (Hf nf) as (? & ? & _); [lia|done]. }
  assert (0 ≤ row + nb * - dr < ROWS ∧ 0 ≤ col + nb * - dc < COLS) as [Hbr Hbc].
  { destruct (decide (nb = 0)) as [->|Hnb]; [lia|].
    destruct (Hb nb) as (? & ? & _); [lia|done]. }
  unfold ROWS, COLS in *. split; [lia|]. case_decide as Hdr.
  - subst dr. assert (dc ≠ 0) as Hdc by (intros ->; done).
    assert (nf + nb ≤ 6 ∨ 7 ≤ nf + nb) as [?|Hbig] by lia; [lia|].
    assert (dc ≤ -1 ∨ 1 ≤ dc) as [?|?] by lia; nia.
  - assert (nf + nb ≤ 5 ∨ 6 ≤ nf + nb) as [?|Hbig] by lia; [lia|].
    assert (dr ≤ -1 ∨ 1 ≤ dr) as [?|?] by lia; nia.
Qed.

Lemma count_consecutive_bounds_witness :
  ∃ n, _count_consecutive (np_zeros ROWS COLS) 0 0 0 1 EMPTY = Ok n ∧
       1 ≤ n ≤ (if decide (0 = 0) then COLS else ROWS).
Proof.
  apply (count_consecutive_bounds (np_zeros ROWS COLS) 0 0 0 1 EMPTY).
  - exact np_zeros_wf.
  - unfold ROWS. lia.
  - unfold COLS. lia.
  - done.
Defined.

(** X15.  The direction (0, 0) must never be passed: on a grid of the right
    shape, at a cell of the grid that holds [piece], the first loop of
    [_count_consecutive] then stays on that cell and no number of
    iterations ends it; at a cell that holds something else the call
    returns 1. *)
Theorem zero_direction_never_returns (b : ndarray) (row col piece : Z) :
  wf_board b → 0 ≤ row < ROWS → 0 ≤ col < COLS →
  (cell b row col = Some piece →
     (∀ fuel count, walk fuel b (row + 0) (col + 0) 0 0 piece count = Diverge) ∧
     _count_consecutive b row col 0 0 piece = Diverge) ∧
  (cell b row col ≠ Some piece →
     _count_consecutive b row col 0 0 piece = Ok 1).
Proof.
  intros Hwf Hr Hc. split.
  - intros Hcell.
    assert (∀ fuel count, walk fuel b (row + 0) (col + 0) 0 0 piece count = Diverge)
      as Hloop.
    { induction fuel as [|fuel IH]; intros count; [done|].
      rewrite walk_step by done. rewrite !Z.add_0_r in *.
      destruct (decide (on_grid_is b piece row col)) as [_|Hno]; [apply IH|].
      by destruct Hno. }
    split; [done|]. unfold _count_consecutive. by rewrite Hloop.
  - intros Hcell.
    assert (∀ fuel d count, walk (S fuel) b row col d d piece count = Ok count)
      as Hstop.
    { intros fuel d count. rewrite walk_step by done.
      destruct (decide (on_grid_is b piece row col)) as [(_ & _ & Hv)|_]; done. }
    unfold _count_consecutive, walk_fuel.
    change (Z.to_nat (ROWS + COLS)) with (S 12).
    replace (row - 0) with row by lia. replace (col - 0) with col by lia.
    rewrite !Z.add_0_r. change (- 0) with 0. rewrite Hstop.
    change (walk 13 b row col 0 0 piece 1 = Ok 1). apply Hstop.
Qed.

Lemma zero_direction_never_returns_witness :
  (∀ fuel count,
     walk fuel (board (state_after [3])) (5 + 0) (3 + 0) 0 0 1 count = Diverge) ∧
  _count_consecutive (board (state_after [3])) 5 3 0 0 1 = Diverge.
Proof.
  apply (zero_direction_never_returns (board (state_after [3])) 5 3 1).
  - split; [reflexivity|]. vm_compute. repeat constructor.
  - unfold ROWS. lia.
  - unfold COLS. lia.
  - reflexivity.
Defined.

(** ** Tests of the front-end *)

Example gui_startup :
  (length (ConnectFourGUI.canvas ConnectFourGUI.__init__),
   ConnectFourGUI.status ConnectFourGUI.__init__,
   ConnectFourGUI.canvas ConnectFourGUI.__init__ !! 0%nat,
   ConnectFourGUI.canvas ConnectFourGUI.__init__ !! 42%nat)
  = (43%nat, "Player 1's turn"%string,
     Some (ConnectFourGUI.mkItem ConnectFourGUI.Rectangle 0 0 560 480 "#0a4ea1" 0 []),
     Some (hole_at 5 6)).
Proof. vm_compute. reflexivity. Qed.

Example gui_first_click :
  (λ g, (discs g, ConnectFourGUI.status g))
    <$> ConnectFourGUI.session
          [ConnectFourGUI.Click (ConnectFourGUI.mkEvent 250 17)]
          ConnectFourGUI.__init__
  = Some ([disc_at 5 3 1], "Player 2's turn"%string).
Proof. vm_compute. reflexivity. Qed.

(** ** The front-end stays in step with the engine *)

Import ConnectFourGUI.

Lemma set_engine_same (g : GUI) : set_engine (engine g) g = g.
Proof. by destruct g. Qed.

(** On a state of a game the status line is one of five texts. *)
Lemma update_status_reachable (g : GUI) :
  reachable (engine g) →
  _update_status g = mkGUI (engine g) (canvas g) (status_line (engine g)).
Proof.
  intros Hreach. destruct (turn_inv _ Hreach) as [_ Hover].
  destruct (reachable_inv _ Hreach) as (_ & _ & Hp & _ & _ & Hnone).
  unfold _update_status, status_line, status_config.
  destruct (game_over (engine g)) eqn:Hg.
  - destruct (Hover eq_refl) as [_ [Hw|[Hw _]]]; rewrite Hw; [|done].
    destruct Hp as [->| ->]; done.
  - destruct Hp as [->| ->]; done.
Qed.

(** The disc painted for a cell of the grid. *)
Lemma draw_disc_cell (g : GUI) (row col p : Z) :
  wf_board (board (engine g)) → 0 ≤ row < ROWS → 0 ≤ col < COLS →
  cell (board (engine g)) row col = Some p →
  _draw_disc row col g = (Ok (), canvas_create (disc_at row col p) g).
Proof.
  intros Hwf Hr Hc Hcell. unfold _draw_disc.
  destruct (np_getitem_cell _ row col Hwf Hr Hc) as (v & Hv & ->).
  assert (v = p) as -> by congruence.
  do 2 f_equal. unfold disc_at, CELL_SIZE, DISC_OUTLINE, COLOR_P1, COLOR_P2, PLAYER1.
  f_equal; try lia. case_bool_decide; case_decide; done.
Qed.

(** A drop on an open game: accepted exactly on a column of the grid whose
    top cell is Empty, refused with a ValueError and without a trace
    otherwise. *)
Lemma drop_piece_open_cases (s : GameState) (col : Z) :
  game_inv s → game_over s = false →
  (0 ≤ col < COLS ∧ cell (board s) 0 col = Some EMPTY ∧
   ∃ row s', drop_piece col s = (Ok (row, col), s')) ∨
  (¬ (0 ≤ col < COLS ∧ cell (board s) 0 col = Some EMPTY) ∧
   ∃ msg, drop_piece col s = (Raise (ValueError msg), s)).
Proof.
  intros Hinv Hover. pose proof Hinv as (_ & Hg & _).
  destruct (decide (0 ≤ col < COLS)) as [Hcol|Hcol].
  - destruct (Hg col Hcol) as (nr & Hnr & Hrange & Hcolumn).
    destruct (decide (0 ≤ nr)) as [Hpos|Hneg].
    + left. split; [done|]. split; [apply Hcolumn; unfold ROWS; lia|].
      destruct (drop_piece_success col nr s (game_inv_wf_state s Hinv)
                  Hover Hcol Hnr Hpos) as (b' & won & _ & _ & _ & _ & _ & _ & Hdrop).
      by eexists _, _.
    + right. split.
      * intros [_ Htop]. apply Hcolumn in Htop; unfold ROWS; lia.
      * exists msg_full. rewrite drop_piece_unfold, Hover, Hnr.
        by rewrite !bool_decide_eq_true_2 by lia.
  - right. split; [by intros [? _]|]. exists msg_column.
    rewrite drop_piece_unfold, Hover. by rewrite bool_decide_eq_false_2.
Qed.

(** What a click does. *)
Lemma on_click_cases (event : tkEvent) (g : GUI) :
  reachable (engine g) →
  let col := event_x event `div` 80 in
  (game_over (engine g) = false ∧ 0 ≤ col < COLS ∧
   cell (board (engine g)) 0 col = Some EMPTY ∧
   ∃ row e',
     drop_piece col (engine g) = (Ok (row, col), e') ∧
     on_click event g
     = (Ok (), mkGUI e' (canvas g ++ [disc_at row col (current_player (engine g))])
                     (status_line e'))) ∨
  (¬ (game_over (engine g) = false ∧ 0 ≤ col < COLS ∧
      cell (board (engine g)) 0 col = Some EMPTY) ∧
   on_click event g = (Ok (), g)).
Proof.
  intros Hreach col. pose proof (reachable_inv _ Hreach) as Hinv.
  unfold on_click. change (event_x event `div` CELL_SIZE) with col.
  destruct (game_over (engine g)) eqn:Hover.
  { right. split; [by intros [? _]|done]. }
  destruct (drop_piece_open_cases (engine g) col Hinv Hover)
    as [(Hcol & Htop & row & e' & Hdrop)|(Hno & msg & Hdrop)].
  - left. do 3 (split; [done|]). exists row, e'. split; [done|]. rewrite Hdrop.
    destruct (drop_piece_step _ _ _ _ Hinv Hdrop)
      as (row' & [= <-] & _ & Hrow & _ & _ & Hnew & _ & _ & _ & Hinv').
    rewrite (draw_disc_cell (set_engine e' g) row col (current_player (engine g)));
      [|by destruct Hinv'|done..].
    rewrite update_status_reachable; [done|]. simpl.
    destruct (reachable_closed _ col Hreach) as [Hr _]. by rewrite Hdrop in Hr.
  - right. split; [by intros (_ & ? & ?); apply Hno|].
    rewrite Hdrop. by rewrite set_engine_same.
Qed.

Lemma init_eq :
  __init__ = mkGUI ConnectFour.new_game (canvas __init__) (status_line ConnectFour.new_game).
Proof. vm_compute. reflexivity. Qed.

Lemma disc_at_is_disc (r c p : Z) : "disc" ∈ tags (disc_at r c p).
Proof. simpl. by left. Qed.

Lemma gui_inv_init : gui_inv __init__.
Proof.
  split; [by exists []|]. split; [by vm_compute|]. split; [by vm_compute|].
  split; [|by vm_compute].
  assert (discs __init__ = []) as -> by (by vm_compute).
  intros it. split; [by intros ?%elem_of_nil|].
  intros (r & c & p & _ & _ & Hp & Hcell & _).
  by apply np_zeros_cell in Hcell.
Qed.

(** Every handler returns normally and keeps the window in step. *)
Lemma handle_inv (a : action) (g : GUI) :
  gui_inv g → ∃ g', handle a g = (Ok (), g') ∧ gui_inv g'.
Proof.
  intros (Hreach & Hstatus & Hback & Hdiscs & Hcount). destruct a as [event|].
  - simpl. destruct (on_click_cases event g Hreach)
      as [(Hover & Hcol & Htop & row & e' & Hdrop & ->)|(_ & ->)];
      [|by exists g].
    eexists. split; [done|].
    pose proof (reachable_inv _ Hreach) as Hinv.
    destruct (drop_piece_step _ _ _ _ Hinv Hdrop)
      as (row' & [= <-] & _ & Hrow & _ & Hempty & Hnew & Hold & _ & Hm & Hinv').
    assert (current_player (engine g) ≠ EMPTY) as Hp.
    { apply is_player_not_empty. by destruct Hinv as (_ & _ & ? & _). }
    split; [|split; [done|split; [|split]]].
    + destruct (reachable_closed _ (event_x event `div` 80) Hreach) as [Hr _].
      by rewrite Hdrop in Hr.
    + unfold backdrop. simpl. rewrite filter_app, filter_cons_False, filter_nil, app_nil_r.
      * done.
      * intros Hno. apply Hno, disc_at_is_disc.
    + intros it. unfold discs. simpl.
      rewrite filter_app, filter_cons_True by apply disc_at_is_disc.
      rewrite filter_nil, elem_of_app, list_elem_of_singleton.
      fold (discs g). rewrite Hdiscs. split.
      * intros [(r & c & p & Hr & Hc & Hpne & Hcell & ->)| ->].
        -- exists r, c, p. do 3 (split; [done|]). split; [|done].
           rewrite Hold; [done|]. intros [= -> ->]. congruence.
        -- by eexists row, _, _.
      * intros (r & c & p & Hr & Hc & Hpne & Hcell & ->).
        destruct (decide ((r, c) = (row, event_x event `div` 80))) as [[= -> ->]|Hne].
        -- right. f_equal. congruence.
        -- left. exists r, c, p. do 3 (split; [done|]). split; [|done].
           by rewrite <- Hold.
    + unfold discs. simpl.
      rewrite filter_app, filter_cons_True by apply disc_at_is_disc.
      rewrite filter_nil, length_app. fold (discs g). simpl. lia.
  - simpl. unfold new_game. simpl. eexists. split; [done|].
    rewrite update_status_reachable by (by exists []).
    change (gui_inv (mkGUI ConnectFour.new_game (backdrop g)
                           (status_line ConnectFour.new_game))).
    rewrite Hback.
    exact (eq_ind __init__ gui_inv gui_inv_init _ init_eq).
Qed.

Lemma session_snoc (acts : list action) (a : action) (g : GUI) :
  session (acts ++ [a]) g
  = session acts g ≫= λ g1, match handle a g1 with
                             | (Ok _, g') => Some g'
                             | _ => None
                             end.
Proof.
  revert g. induction acts as [|a' acts IH]; intros g; simpl.
  - by destruct (handle a g) as [[[]| |] g'].
  - destruct (handle a' g) as [[[]| |] g']; [apply IH|done..].
Qed.

Lemma gui_reachable_inv (g : GUI) : gui_reachable g → gui_inv g.
Proof.
  intros [acts Hs]. revert g Hs.
  induction acts as [|a acts IH] using rev_ind; intros g.
  { intros Hs. change (Some __init__ = Some g) in Hs.
    apply (inj Some) in Hs as <-. apply gui_inv_init. }
  rewrite session_snoc. destruct (session acts __init__) as [g1|]; [|done].
  simpl. destruct (handle_inv a g1 (IH g1 eq_refl)) as (g' & -> & Hinv').
  by intros [= <-].
Qed.

Lemma hole_on_startup_canvas (r c : Z) :
  0 ≤ r < ROWS → 0 ≤ c < COLS → hole_at r c ∈ canvas __init__.
Proof.
  intros Hr Hc. unfold ROWS, COLS in *.
  apply (list_elem_of_lookup_2 _ (Z.to_nat (1 + r * 7 + c))).
  assert (r = 0 ∨ r = 1 ∨ r = 2 ∨ r = 3 ∨ r = 4 ∨ r = 5) as Hrs by lia.
  assert (c = 0 ∨ c = 1 ∨ c = 2 ∨ c = 3 ∨ c = 4 ∨ c = 5 ∨ c = 6) as Hcs by lia.
  destruct Hrs as [->|[->|[->|[->|[->| ->]]]]];
    destruct Hcs as [->|[->|[->|[->|[->|[->| ->]]]]]]; vm_compute; reflexivity.
Qed.

(** ** What the user of the window can rely on *)

(** X16.  No session crashes a handler: whatever sequence of clicks and
    "New Game" presses follows start-up, every handler returns normally.
    The RuntimeError of the engine cannot occur because the click handler
    tests [game_over] first, and its ValueErrors are caught. *)
Theorem session_never_fails (acts : list action) :
  ∃ g, session acts __init__ = Some g.
Proof.
  induction acts as [|a acts IH] using rev_ind; [by exists __init__|].
  destruct IH as (g1 & Hs). rewrite session_snoc, Hs.
  destruct (handle_inv a g1 (gui_reachable_inv g1 (ex_intro _ acts Hs)))
    as (g' & Hh & _).
  exists g'. simpl. by rewrite Hh.
Qed.

(** X17.  A click that cannot be a move changes nothing at all: when the
    game is over, or the click falls left or right of the seven columns,
    or the clicked column's top cell is taken, [on_click] returns and
    engine, canvas and status line are what they were. *)
Theorem click_ignored (event : tkEvent) (g : GUI) :
  gui_reachable g →
  game_over (engine g) = true ∨
  event_x event < 0 ∨ COLS * CELL_SIZE ≤ event_x event ∨
  cell (board (engine g)) 0 (event_x event `div` CELL_SIZE) ≠ Some EMPTY →
  on_click event g = (Ok (), g).
Proof.
  intros Hreach Hwhy. destruct (gui_reachable_inv g Hreach) as (Hr & _).
  destruct (on_click_cases event g Hr) as [(Hover & Hcol & Htop & _)|(_ & ->)];
    [|done].
  exfalso. unfold COLS, CELL_SIZE in *.
  destruct Hwhy as [Hg|[Hneg|[Hbig|Hfull]]]; [congruence| | |done].
  - assert (event_x event `div` 80 < 0); [|lia].
    apply Z.div_lt_upper_bound; lia.
  - assert (7 ≤ event_x event `div` 80); [|lia].
    apply Z.div_le_lower_bound; lia.
Qed.

Lemma click_ignored_witness :
  on_click (mkEvent 600 10) __init__ = (Ok (), __init__).
Proof.
  apply (click_ignored (mkEvent 600 10) __init__).
  - exists []. reflexivity.
  - right. right. left. unfold COLS, CELL_SIZE. simpl. lia.
Defined.



(** X19.  The canvas shows the grid: in every window a session leads to,
    the disc items are exactly the discs [disc_at r c p] of the non-Empty
    cells [(r, c)] holding [p], there are [moves_made] of them, and the
    rest of the canvas is the board drawing of start-up. *)
Theorem canvas_shows_board (g : GUI) :
  gui_reachable g →
  (∀ it, it ∈ discs g ↔
         ∃ r c p, 0 ≤ r < ROWS ∧ 0 ≤ c < COLS ∧ p ≠ EMPTY ∧
                  cell (board (engine g)) r c = Some p ∧ it = disc_at r c p) ∧
  Z.of_nat (length (discs g)) = moves_made (engine g) ∧
  backdrop g = canvas __init__.
Proof.
  intros Hreach. by destruct (gui_reachable_inv g Hreach) as (_ & _ & ? & ? & ?).
Qed.



(** X22.  Discs are painted over holes: in every window a session leads
    to, each disc item lies inside the square of a cell of the grid and
    has the bounding box of the hole that the board drawing has for that
    cell. *)
Theorem discs_cover_holes (g : GUI) (it : item) :
  gui_reachable g → it ∈ discs g →
  ∃ r c, 0 ≤ r < ROWS ∧ 0 ≤ c < COLS ∧
         in_cell_square r c it ∧
         hole_at r c ∈ backdrop g ∧
         (x0 it, y0 it, x1 it, y1 it)
         = (x0 (hole_at r c), y0 (hole_at r c), x1 (hole_at r c), y1 (hole_at r c)).
Proof.
  intros Hreach Hit.
  destruct (gui_reachable_inv g Hreach) as (_ & _ & Hback & Hdiscs & _).
  apply Hdiscs in Hit as (r & c & p & Hr & Hc & _ & _ & ->).
  exists r, c. do 2 (split; [done|]). split; [|split; [|done]].
  - unfold in_cell_square. simpl. lia.
  - rewrite Hback. by apply hole_on_startup_canvas.
Qed.

Lemma canvas_shows_board_witness :
  (∀ it, it ∈ discs (gui_after [Click (mkEvent 250 17); Click (mkEvent 10 400)]) ↔
         ∃ r c p, 0 ≤ r < ROWS ∧ 0 ≤ c < COLS ∧ p ≠ EMPTY ∧
                  cell (board (engine (gui_after [Click (mkEvent 250 17);
                                                  Click (mkEvent 10 400)]))) r c
                  = Some p ∧ it = disc_at r c p) ∧
  Z.of_nat (length (discs (gui_after [Click (mkEvent 250 17); Click (mkEvent 10 400)])))
  = moves_made (engine (gui_after [Click (mkEvent 250 17); Click (mkEvent 10 400)])) ∧
  backdrop (gui_after [Click (mkEvent 250 17); Click (mkEvent 10 400)])
  = canvas __init__.
Proof.
  apply (canvas_shows_board (gui_after [Click (mkEvent 250 17); Click (mkEvent 10 400)])).
  exists [Click (mkEvent 250 17); Click (mkEvent 10 400)]. vm_compute. reflexivity.
Defined.



Lemma discs_cover_holes_witness :
  ∃ r c, 0 ≤ r < ROWS ∧ 0 ≤ c < COLS ∧
         in_cell_square r c (disc_at 5 3 1) ∧
         hole_at r c ∈ backdrop (gui_after [Click (mkEvent 250 17)]) ∧
         (x0 (disc_at 5 3 1), y0 (disc_at 5 3 1), x1 (disc_at 5 3 1), y1 (disc_at 5 3 1))
         = (x0 (hole_at r c), y0 (hole_at r c), x1 (hole_at r c), y1 (hole_at r c)).
Proof.
  apply (discs_cover_holes (gui_after [Click (mkEvent 250 17)]) (disc_at 5 3 1)).
  - exists [Click (mkEvent 250 17)]. vm_compute. reflexivity.
  - apply (list_elem_of_lookup_2 _ 0%nat). vm_compute. reflexivity.
Defined.
